(** * Facility location with patterns: the notebook's model builder

    A shallow embedding of [Facility_Location_Pattern.ipynb]: the data cell
    (instance data, pattern enumeration, the three assertions), the cells that
    declare the variables, precompute the pattern costs, set the objective and
    add the three families of constraints, and the final call of the solver.

    The notebook is a sequence of statements over global names and a solver
    model object; it is embedded as a state-and-exception monad over the
    notebook's mutable globals. *)

From stdpp Require Import gmap strings list fin_maps sorting.
From Stdlib Require Import ZArith Lia.

Local Open Scope Z_scope.
Local Open Scope nat_scope.

Set Default Proof Using "Type".

(** ** The built-ins and the pieces of [itertools] the notebook uses *)

Module builtins.

(** [range(n)] *)
Definition range (n : nat) : list nat := seq 0 n.

(** [sum(...)] over integers: starts at 0, adds from the left. *)
Definition sum (zs : list Z) : Z := foldl Z.add 0%Z zs.

End builtins.

Module itertools.

(** [combinations(pool, r)]: the [r]-length subsequences of [pool], in
    lexicographic order of the positions they are taken from. *)
Fixpoint combinations {A : Type} (pool : list A) (r : nat) : list (list A) :=
  match r with
  | 0 => [[]]
  | S r' =>
      match pool with
      | [] => []
      | x :: xs => (cons x <$> combinations xs r') ++ combinations xs r
      end
  end.

(** [chain.from_iterable(xss)] *)
Definition chain_from_iterable {A : Type} (xss : list (list A)) : list A :=
  concat xss.

End itertools.

Import itertools.

(** ** Exceptions and the two monads *)

Inductive exn : Set :=
| AssertionError
| IndexError
| KeyError
| NameError
| TypeError
| GurobiError.

(** Pure code that may raise. *)
Definition E (A : Type) : Type := (exn + A)%type.

Definition E_bind {A B : Type} (e : E A) (k : A → E B) : E B :=
  match e with
  | inl x => inl x
  | inr a => k a
  end.

(** [t[i]] on a tuple, for a non-negative index. *)
Definition index {A : Type} (t : list A) (i : nat) : E A :=
  match t !! i with
  | Some a => inr a
  | None => inl IndexError
  end.

(** [d[k]] on a dictionary. *)
Definition getitem `{Countable K} {A : Type} (d : gmap K A) (k : K) : E A :=
  match d !! k with
  | Some a => inr a
  | None => inl KeyError
  end.

(** A generator expression [(g x for x in xs)] consumed to the end: the
    first element that raises stops the consumer. *)
Fixpoint genexp {A B : Type} (g : A → E B) (xs : list A) : E (list B) :=
  match xs with
  | [] => inr []
  | x :: xs' =>
      E_bind (g x) (λ y, E_bind (genexp g xs') (λ ys, inr (y :: ys)))
  end.

(** ** Double-precision numbers

    The solver's expressions hold their coefficients and constants as
    doubles. The notebook forms them from Python integers only, by
    conversion and by addition; such a double is an integer or it is not
    finite, and a finite one is kept as the integer it is equal to. *)

Inductive float64 : Set :=
| Finite (z : Z)
| Infinity (negative : bool)
| NaN.

(** The integer with 53 significant bits that is nearest to [z]; of two that
    are equally near, the one whose 53 bits end in 0. *)
Definition round_double (z : Z) : Z :=
  let a := Z.abs z in
  let e := (Z.log2 a - 52)%Z in
  if (e <=? 0)%Z then z
  else
    let q := Z.shiftr a e in
    let r := Z.land a (Z.ones e) in
    let half := Z.shiftl 1 (e - 1) in
    let q' := if (half <? r)%Z || ((r =? half)%Z && Z.odd q)
              then (q + 1)%Z else q in
    (Z.sgn z * Z.shiftl q' e)%Z.

(** The finite doubles lie below 2^1024: they have at most 1024 bits. *)
Definition in_range (z : Z) : bool := (Z.log2 (Z.abs z) <? 1024)%Z.

(** An integer operand of an expression is converted to a double; an
    integer that lies beyond the doubles is refused. *)
Definition float_of_int (z : Z) : E float64 :=
  let r := round_double z in
  if in_range r then inr (Finite r) else inl TypeError.

(** [x + y] on doubles: the sum is rounded, and a sum beyond the finite
    doubles is an infinity. *)
Definition float_add (x y : float64) : float64 :=
  match x, y with
  | Finite a, Finite b =>
      let r := round_double (a + b) in
      if in_range r then Finite r else Infinity (r <? 0)%Z
  | NaN, _ | _, NaN => NaN
  | Infinity s, Infinity t => if Bool.eqb s t then Infinity s else NaN
  | Infinity s, Finite _ | Finite _, Infinity s => Infinity s
  end.

(** ** The solver's objects *)

Abbreviation pattern := (list nat) (only parsing).
Abbreviation key := (nat * list nat)%type (only parsing).

Inductive VType : Set := CONTINUOUS | BINARY | INTEGER.
Inductive Sense : Set := EQUAL | LESS_EQUAL | GREATER_EQUAL.
Inductive ObjSense : Set := MINIMIZE | MAXIMIZE.

(** A variable handle is the column it was given by [addVar]. *)
Abbreviation Var := nat (only parsing).

(** The name [l[i,p]] of a variable is kept as the pair [(i, p)]. *)
Record VarDecl : Type := mkVarDecl { vtype : VType; vname : key }.

(** An expression as the model holds it: its numbers are finite doubles. *)
Record LinExpr : Type := mkLinExpr { terms : list (Z * Var); constant : Z }.

Record Constr : Type := mkConstr { lhs : LinExpr; sense : Sense; rhs : Z }.

Record Model : Type := mkModel {
  mname : string;
  vars : list VarDecl;
  objective : LinExpr;
  objsense : ObjSense;
  constrs : list Constr
}.

(** What is recorded of a run: a model was created under a name; the solver
    was asked to optimize a model. *)
Inductive event : Type :=
| NewModel (name : string)
| Optimize (mo : Model).

(** [quicksum] of integers is an expression without variables, identified
    with its constant: the constant takes the elements one after the other,
    each converted to a double. *)
Fixpoint quicksum_from (s : float64) (zs : list Z) : E float64 :=
  match zs with
  | [] => inr s
  | z :: zs' =>
      E_bind (float_of_int z) (λ y, quicksum_from (float_add s y) zs')
  end.

Definition quicksum (zs : list Z) : E float64 := quicksum_from (Finite 0) zs.

(** [z + e] for an integer [z] and a constant expression [e]. *)
Definition add_int (z : Z) (e : float64) : E float64 :=
  E_bind (float_of_int z) (λ y, inr (float_add y e)).

(** What the dictionary [cost] holds: the Python integer of
    [cost[i, p] = 0], or the constant expression of
    [f[i] + quicksum(...)]. *)
Inductive number : Set :=
| Int (z : Z)
| Const (x : float64).

#[global] Instance number_inhabited : Inhabited number := populate (Int 0).

(** [quicksum] of terms [coefficient * variable]. *)
Definition quicksum_terms (ts : list (Z * Var)) : LinExpr := mkLinExpr ts 0.

(** The expression consisting of one variable. *)
Definition var_expr (v : Var) : LinExpr := mkLinExpr [(1%Z, v)] 0.

(** ** The notebook's state *)

(** The input data, assigned once at the top of the data cell. *)
Record data : Type := Data {
  I : list nat;
  J : list nat;
  b : list Z;
  f : list Z;
  C : list Z;
  c : gmap (nat * nat) Z
}.

(** The globals the later cells read and write ([P], [m], [l], [cost]) and
    the record of the models created and of the requests to optimize. *)
Record state : Type := mkState {
  g_P : list pattern;
  g_m : option Model;
  g_l : gmap key Var;
  g_cost : gmap key number;
  g_log : list event
}.

Definition set_P (P : list pattern) (st : state) : state :=
  mkState P (g_m st) (g_l st) (g_cost st) (g_log st).
Definition set_m (mo : Model) (st : state) : state :=
  mkState (g_P st) (Some mo) (g_l st) (g_cost st) (g_log st).
Definition set_l (l : gmap key Var) (st : state) : state :=
  mkState (g_P st) (g_m st) l (g_cost st) (g_log st).
Definition set_cost (cost : gmap key number) (st : state) : state :=
  mkState (g_P st) (g_m st) (g_l st) cost (g_log st).
Definition add_log (ev : event) (st : state) : state :=
  mkState (g_P st) (g_m st) (g_l st) (g_cost st) (g_log st ++ [ev]).

Definition M (A : Type) : Type := state → state * E A.

Definition ret {A : Type} (a : A) : M A := λ st, (st, inr a).

Definition bind {A B : Type} (ma : M A) (k : A → M B) : M B :=
  λ st, match ma st with
        | (st', inl x) => (st', inl x)
        | (st', inr a) => k a st'
        end.

Definition raise {A : Type} (x : exn) : M A := λ st, (st, inl x).

Definition lift {A : Type} (e : E A) : M A := λ st, (st, e).

Definition gets {A : Type} (g : state → A) : M A := λ st, (st, inr (g st)).

Definition modify (g : state → state) : M unit := λ st, (g st, inr tt).

Declare Scope nb_scope.
Delimit Scope nb_scope with nb.
Notation "x <- a ;; k" := (bind a (λ x, k))
  (at level 100, a at next level, k at level 200, right associativity) : nb_scope.
Notation "a ;; k" := (bind a (λ _, k))
  (at level 100, k at level 200, right associativity) : nb_scope.
Local Open Scope nb_scope.

(** [assert(cond)] *)
Definition assert (cond : bool) : M unit :=
  if cond then ret tt else raise AssertionError.

(** [for x in xs: body] *)
Fixpoint for_ {A : Type} (xs : list A) (body : A → M unit) : M unit :=
  match xs with
  | [] => ret tt
  | x :: xs' => body x ;; for_ xs' body
  end.

(** The global [m]; reading it before the model cell ran is a [NameError]. *)
Definition the_model : M Model :=
  λ st, match g_m st with
        | Some mo => (st, inr mo)
        | None => (st, inl NameError)
        end.

(** ** The solver's methods *)

(** [Model(name)] *)
Definition new_Model (name : string) : Model :=
  mkModel name [] (mkLinExpr [] 0) MINIMIZE [].

Definition add_vars (mo : Model) (ds : list VarDecl) : Model :=
  mkModel (mname mo) (vars mo ++ ds) (objective mo) (objsense mo) (constrs mo).

Definition set_objective (mo : Model) (e : LinExpr) (s : ObjSense) : Model :=
  mkModel (mname mo) (vars mo) e s (constrs mo).

Definition add_constrs (mo : Model) (cs : list Constr) : Model :=
  mkModel (mname mo) (vars mo) (objective mo) (objsense mo) (constrs mo ++ cs).

(** [m.addVar(vtype=..., name=...)]: the new variable takes the next column. *)
Definition addVar (vt : VType) (name : key) : M Var :=
  mo <- the_model;;
  modify (set_m (add_vars mo [mkVarDecl vt name]));;
  ret (length (vars mo)).

(** [m.setObjective(expr, sense)] *)
Definition setObjective (e : LinExpr) (s : ObjSense) : M unit :=
  mo <- the_model;;
  modify (set_m (set_objective mo e s)).

(** [m.addConstr(lhs == rhs)] *)
Definition addConstr (cn : Constr) : M unit :=
  mo <- the_model;;
  modify (set_m (add_constrs mo [cn])).

(** [m.update(); m.optimize()]: the model as it stands is handed to the
    solver; what the solver answers is outside the notebook. *)
Definition optimize : M unit :=
  mo <- the_model;;
  modify (add_log (Optimize mo)).

(** ** The cells *)

(** [P = tuple(chain.from_iterable(combinations(J, r) for r in range(len(J)+1)))] *)
Definition patterns (J : list nat) : list pattern :=
  chain_from_iterable ((λ r, combinations J r) <$> builtins.range (length J + 1)).

(** [len(J) == len(b)] *)
Definition check_demands (d : data) : bool := length (J d) =? length (b d).

(** [len(I) == len(f) == len(C)] *)
Definition check_facilities (d : data) : bool :=
  (length (I d) =? length (f d)) && (length (f d) =? length (C d)).

(** [len(c) == len(I) * len(J)] *)
Definition check_costs (d : data) : bool :=
  size (c d) =? length (I d) * length (J d).

(** The data cell: the pattern tuple, then the three assertions. *)
Definition data_cell (d : data) : M unit :=
  modify (set_P (patterns (J d)));;
  assert (check_demands d);;
  assert (check_facilities d);;
  assert (check_costs d).

(** [m = Model('FacilityLocationWithPattern')] *)
Definition model_cell : M unit :=
  modify (set_m (new_Model "FacilityLocationWithPattern"));;
  modify (add_log (NewModel "FacilityLocationWithPattern")).

(** [l[i, p] = m.addVar(vtype=GRB.BINARY, name=f'l[{i},{p}]')] *)
Definition var_body (i : nat) (p : pattern) : M unit :=
  v <- addVar BINARY (i, p);;
  modify (λ st, set_l (<[(i, p) := v]> (g_l st)) st).

(** [l = {}], then one binary variable per facility and pattern. *)
Definition var_cell (d : data) : M unit :=
  modify (set_l ∅);;
  P <- gets g_P;;
  for_ (I d) (λ i, for_ P (λ p, var_body i p)).

(** The arithmetic of [f[i] + quicksum(...)], on the opening cost and the
    connection costs that were read. *)
Definition cost_sum (fi : Z) (cs : list Z) : E float64 :=
  E_bind (quicksum cs) (add_int fi).

(** The right-hand side of one assignment to [cost[i, p]]. *)
Definition pattern_cost (d : data) (i : nat) (p : pattern) : E number :=
  if length p =? 0 then inr (Int 0)
  else
    E_bind (index (f d) i) (λ fi,
    E_bind (genexp (λ j, getitem (c d) (i, j)) p) (λ cs,
    E_bind (cost_sum fi cs) (λ x, inr (Const x)))).

Definition cost_body (d : data) (i : nat) (p : pattern) : M unit :=
  w <- lift (pattern_cost d i p);;
  modify (λ st, set_cost (<[(i, p) := w]> (g_cost st)) st).

(** [cost = {}], then the cost of every pattern at every facility. *)
Definition cost_cell (d : data) : M unit :=
  modify (set_cost ∅);;
  P <- gets g_P;;
  for_ (I d) (λ i, for_ P (λ p, cost_body d i p)).

(** The pairs [(i, p)] of [for i in I for p in P], in iteration order. *)
Definition pairs (Is : list nat) (P : list pattern) : list key :=
  i ← Is; (λ p, (i, p)) <$> P.

(** The coefficient that [w * v] gives the variable [v], for an entry [w]
    of [cost]. *)
Definition coefficient (w : number) : E float64 :=
  match w with
  | Int z => float_of_int z
  | Const x => inr x
  end.

(** One element [cost[i, p] * l[i, p]] of the objective's generator. *)
Definition objective_term (cost : gmap key number) (l : gmap key Var) (k : key)
    : E (float64 * Var) :=
  E_bind (getitem cost k) (λ w,
  E_bind (getitem l k) (λ v,
  E_bind (coefficient w) (λ x, inr (x, v)))).

(** The solver takes a coefficient only when it is finite. *)
Definition finite_term (t : float64 * Var) : E (Z * Var) :=
  match t.1 with
  | Finite z => inr (z, t.2)
  | _ => inl GurobiError
  end.

(** [m.setObjective(quicksum(cost[i, p] * l[i, p] for i in I for p in P),
    GRB.MINIMIZE)]: [m] is read first, then the generator is consumed, then
    the coefficients are handed over. *)
Definition objective_cell (d : data) : M unit :=
  the_model;;
  P <- gets g_P;;
  cost <- gets g_cost;;
  l <- gets g_l;;
  ts <- lift (genexp (objective_term cost l) (pairs (I d) P));;
  cs <- lift (genexp finite_term ts);;
  setObjective (quicksum_terms cs) MINIMIZE.

(** The constraint [l[i, p] == 0]. *)
Definition fix_to_zero (v : Var) : Constr := mkConstr (var_expr v) EQUAL 0.

(** The constraint [quicksum(vs) == 1]. *)
Definition exactly_one (vs : list Var) : Constr :=
  mkConstr (quicksum_terms ((λ v, (1%Z, v)) <$> vs)) EQUAL 1.

(** [sum(b[j] for j in list(p))] *)
Definition demand (d : data) (p : pattern) : E Z :=
  E_bind (genexp (λ j, index (b d) j) p) (λ bs, inr (builtins.sum bs)).

(** [if sum(b[j] for j in list(p)) > C[i]: m.addConstr(l[i, p] == 0)] *)
Definition capacity_body (d : data) (i : nat) (p : pattern) : M unit :=
  s <- lift (demand d p);;
  Ci <- lift (index (C d) i);;
  if (Ci <? s)%Z then
    the_model;;
    l <- gets g_l;;
    v <- lift (getitem l (i, p));;
    addConstr (fix_to_zero v)
  else ret tt.

(** Patterns whose demand exceeds the capacity are excluded. *)
Definition capacity_cell (d : data) : M unit :=
  P <- gets g_P;;
  for_ (I d) (λ i, for_ P (λ p, capacity_body d i p)).

(** [m.addConstr(quicksum(l[i, p] for p in P) == 1)] *)
Definition facility_body (P : list pattern) (i : nat) : M unit :=
  the_model;;
  l <- gets g_l;;
  vs <- lift (genexp (λ p, getitem l (i, p)) P);;
  addConstr (exactly_one vs).

(** For each facility, exactly one pattern. *)
Definition facility_cell (d : data) : M unit :=
  P <- gets g_P;;
  for_ (I d) (facility_body P).

(** [j in list(p)] *)
Definition contains (p : pattern) (j : nat) : bool := bool_decide (j ∈ p).

(** The pairs of [for i in I for p in P if j in list(p)]. *)
Definition pairs_with (Is : list nat) (P : list pattern) (j : nat) : list key :=
  filter (λ k, contains k.2 j = true) (pairs Is P).

(** [m.addConstr(quicksum(l[i, p] for i in I for p in P if j in list(p)) == 1)] *)
Definition customer_body (Is : list nat) (P : list pattern) (j : nat) : M unit :=
  the_model;;
  l <- gets g_l;;
  vs <- lift (genexp (getitem l) (pairs_with Is P j));;
  addConstr (exactly_one vs).

(** For each customer, exactly one pattern that contains the customer. *)
Definition customer_cell (d : data) : M unit :=
  P <- gets g_P;;
  for_ (J d) (customer_body (I d) P).

(** [m.update(); m.optimize()] *)
Definition optimize_cell : M unit := optimize.

(** The cells up to and including the constraints. *)
Definition build (d : data) : M unit :=
  data_cell d;;
  model_cell;;
  var_cell d;;
  cost_cell d;;
  objective_cell d;;
  capacity_cell d;;
  facility_cell d;;
  customer_cell d.

(** The whole notebook, run top to bottom. *)
Definition notebook (d : data) : M unit :=
  build d;;
  optimize_cell.

(** The state of a fresh kernel. *)
Definition fresh : state := mkState [] None ∅ ∅ [].

(** ** The instance of the notebook *)

(** A dictionary display [{k1: v1, k2: v2, ...}]: the entries are stored from
    left to right, a later one replacing an earlier one with the same key. *)
Definition dict_display `{Countable K} {A : Type} (kvs : list (K * A)) : gmap K A :=
  foldl (λ d kv, <[kv.1 := kv.2]> d) ∅ kvs.

Definition example : data :=
  Data (builtins.range 3) (builtins.range 5)
    [5; 7; 10; 14; 11]%Z
    [5; 11; 9]%Z
    [10; 20; 20]%Z
    (dict_display
       [((0, 0), 2%Z); ((0, 1), 7%Z); ((0, 2), 7%Z); ((0, 3), 8%Z);
        ((0, 4), 8%Z); ((1, 0), 7%Z); ((1, 1), 2%Z); ((1, 2), 4%Z);
        ((1, 3), 7%Z); ((1, 4), 2%Z); ((2, 0), 2%Z); ((2, 1), 2%Z);
        ((2, 2), 2%Z); ((2, 3), 4%Z); ((2, 4), 8%Z)]).

(** ** What an assignment of the variables satisfies *)

Definition assignment : Type := Var → Z.

Definition eval (x : assignment) (e : LinExpr) : Z :=
  (foldr (λ t acc, t.1 * x t.2 + acc) 0 (terms e) + constant e)%Z.

Definition holds (x : assignment) (cn : Constr) : Prop :=
  match sense cn with
  | EQUAL => eval x (lhs cn) = rhs cn
  | LESS_EQUAL => (eval x (lhs cn) ≤ rhs cn)%Z
  | GREATER_EQUAL => (rhs cn ≤ eval x (lhs cn))%Z
  end.

(** [x] respects the variable types of the model: binary variables take 0
    or 1. *)
Definition well_typed (mo : Model) (x : assignment) : Prop :=
  ∀ v dcl, vars mo !! v = Some dcl → vtype dcl = BINARY → x v = 0%Z ∨ x v = 1%Z.

Definition feasible (mo : Model) (x : assignment) : Prop :=
  well_typed mo x ∧ Forall (holds x) (constrs mo).

Definition value (mo : Model) (x : assignment) : Z := eval x (objective mo).


(** ** The built model in closed form

    What the cells leave behind when no statement raises, written as
    functions of the data; [build_ok] below proves that this is the state
    the cells produce. *)

(** All three assertions pass. *)
Definition checks (d : data) : bool :=
  check_demands d && check_facilities d && check_costs d.

(** The declaration made for [l[i, p]]. *)
Definition decl (k : key) : VarDecl := mkVarDecl BINARY k.

(** The dictionary [l] after the variable loop ran over [ks], the first new
    variable taking column [n]. *)
Fixpoint assign (ks : list key) (n : nat) (l : gmap key nat) : gmap key nat :=
  match ks with
  | [] => l
  | k :: ks' => assign ks' (S n) (<[k := n]> l)
  end.

(** A dictionary after a loop stored [g k] under every [k] of [ks]. *)
Fixpoint fill {V : Type} (g : key → V) (ks : list key) (m : gmap key V)
    : gmap key V :=
  match ks with
  | [] => m
  | k :: ks' => fill g ks' (<[k := g k]> m)
  end.

(** The value of an expression that does not raise. *)
Definition value_of {V : Type} (dflt : V) (e : E V) : V :=
  match e with
  | inr v => v
  | inl _ => dflt
  end.

Definition cost_of (d : data) (k : key) : number :=
  value_of (Int 0) (pattern_cost d k.1 k.2).

(** The coefficient an entry of [cost] gives, when it is finite. *)
Definition coeff_of (w : number) : Z :=
  match coefficient w with
  | inr (Finite z) => z
  | _ => 0%Z
  end.

Definition demand_of (d : data) (p : pattern) : Z := value_of 0%Z (demand d p).

(** The test [sum(b[j] for j in list(p)) > C[i]]. *)
Definition exceeds (d : data) (k : key) : bool :=
  (value_of 0%Z (index (C d) k.1) <? demand_of d k.2)%Z.

Definition built_pairs (d : data) : list key := pairs (I d) (patterns (J d)).

Definition built_l (d : data) : gmap key nat := assign (built_pairs d) 0 ∅.

Definition built_cost (d : data) : gmap key number :=
  fill (cost_of d) (built_pairs d) ∅.

Definition built_objective (d : data) : LinExpr :=
  quicksum_terms
    ((λ k, (coeff_of (built_cost d !!! k), built_l d !!! k)) <$> built_pairs d).

Definition capacity_constrs (d : data) (l : gmap key nat) (ks : list key)
    : list Constr :=
  k ← ks; if exceeds d k then [fix_to_zero (l !!! k)] else [].

Definition facility_constrs (d : data) (l : gmap key nat) (P : list pattern)
    : list Constr :=
  (λ i, exactly_one ((λ p, l !!! (i, p)) <$> P)) <$> I d.

Definition customer_constrs (d : data) (l : gmap key nat) (P : list pattern)
    : list Constr :=
  (λ j, exactly_one ((λ k, l !!! k) <$> pairs_with (I d) P j)) <$> J d.

Definition built_model (d : data) : Model :=
  mkModel "FacilityLocationWithPattern"
    (decl <$> built_pairs d)
    (built_objective d)
    MINIMIZE
    (capacity_constrs d (built_l d) (built_pairs d)
       ++ facility_constrs d (built_l d) (patterns (J d))
       ++ customer_constrs d (built_l d) (patterns (J d))).

Definition built_state (d : data) (st : state) : state :=
  mkState (patterns (J d)) (Some (built_model d)) (built_l d) (built_cost d)
    (g_log st ++ [NewModel "FacilityLocationWithPattern"]).

(** Data on which no statement of the notebook raises: the assertions pass,
    every facility is an index into its tuples, for every facility and
    customer the demand and the connection cost that the loops read exist,
    and the cost of every pattern at every facility is a finite double. *)
Record data_ok (d : data) : Prop := {
  ok_checks : checks d = true;
  ok_facility : ∀ i, i ∈ I d → i < length (f d);
  ok_customer : ∀ i j, i ∈ I d → j ∈ J d → j < length (b d);
  ok_costs : ∀ i j, i ∈ I d → j ∈ J d → is_Some (c d !! (i, j));
  ok_finite : ∀ i p, i ∈ I d → p ∈ patterns (J d) → p ≠ [] →
    ∃ w, cost_sum (f d !!! i) ((λ j, c d !!! (i, j)) <$> p) = inr (Finite w)
}.

(** The first [k] groups of the enumeration. *)
Definition groups {A : Type} (pool : list A) (k : nat) : list (list A) :=
  chain_from_iterable ((λ r, combinations pool r) <$> builtins.range k).

(** ** The vocabulary of the properties *)

(** The sum of a finite family of integers. *)
Definition total (zs : list Z) : Z := foldr Z.add 0%Z zs.

(** The sum of [g a] over the [a] of [xs]. *)
Definition total_over {A : Type} (g : A → Z) (xs : list A) : Z := total (g <$> xs).

(** A connection cost that the loops will read is not in the dictionary. *)
Definition missing_cost (d : data) : Prop :=
  ∃ i j, i ∈ I d ∧ j ∈ J d ∧ c d !! (i, j) = None.

(** A tuple has the wrong length. *)
Definition wrong_lengths (d : data) : Prop :=
  length (b d) ≠ length (J d) ∨ length (f d) ≠ length (I d)
  ∨ length (C d) ≠ length (I d).

(** The run stops at an assertion of the data cell: nothing but [P] has
    been assigned, the model is what it was, if there was one, and no model
    has been created nor the solver asked to optimize. *)
Definition stops_at_validation (d : data) (st : state) : Prop :=
  ∃ st', notebook d st = (st', inl AssertionError)
         ∧ g_m st' = g_m st ∧ g_l st' = g_l st ∧ g_cost st' = g_cost st
         ∧ g_log st' = g_log st.

(** The run raises, and the solver was not asked to optimize during it. *)
Definition raises_before_solver (d : data) (st : state) : Prop :=
  ∃ st' e evs, notebook d st = (st', inl e)
               ∧ g_log st' = g_log st ++ evs ∧ ∀ mo, Optimize mo ∉ evs.

(** A statement that neither creates a model nor asks the solver to
    optimize. *)
Definition log_stable {A : Type} (ma : M A) : Prop :=
  ∀ st st' r, ma st = (st', r) → g_log st' = g_log st.

(** A statement that leaves the dictionary [l] and the variables of the
    model as they are. *)
Definition vars_stable {A : Type} (ma : M A) : Prop :=
  ∀ st st' r, ma st = (st', r) →
    g_l st' = g_l st ∧ vars <$> g_m st' = vars <$> g_m st.

(** Two facilities, one customer, and a dictionary of the right size in
    which the key [(0, 1)] stands where [(1, 0)] should. *)
Definition swapped_key : data :=
  Data (builtins.range 2) (builtins.range 1)
    [3]%Z
    [1; 1]%Z
    [5; 5]%Z
    (dict_display [((0, 0), 1%Z); ((0, 1), 2%Z)]).

(** The instance of the notebook with the last demand left out. *)
Definition short_demands : data :=
  Data (I example) (J example) [5; 7; 10; 14]%Z (f example) (C example)
    (c example).

(** The costs at a facility are small enough for the doubles to hold their
    sums exactly: the absolute values of the opening cost and of the
    connection costs to all customers add up to no more than 2^53. *)
Definition exact_costs (d : data) : Prop :=
  ∀ i, i ∈ I d →
    (Z.abs (f d !!! i) + total_over (λ j, Z.abs (c d !!! (i, j))) (J d)
     ≤ 2 ^ 53)%Z.

(** An integer that has a double. *)
Definition representable (z : Z) : Prop := in_range (round_double z) = true.

(** Every cost that the loops can read has a double. *)
Definition representable_costs (d : data) : Prop :=
  (∀ i, i ∈ I d → representable (f d !!! i))
  ∧ ∀ i j z, i ∈ I d → j ∈ J d → c d !! (i, j) = Some z → representable z.


(** ** Certificates for bounds on the objective *)

#[global] Instance VType_eq_dec : EqDecision VType.
Proof. solve_decision. Defined.
#[global] Instance Sense_eq_dec : EqDecision Sense.
Proof. solve_decision. Defined.
#[global] Instance LinExpr_eq_dec : EqDecision LinExpr.
Proof. solve_decision. Defined.
#[global] Instance Constr_eq_dec : EqDecision Constr.
Proof. solve_decision. Defined.

(** Membership in a list of variables. *)
Definition memb (v : nat) (vs : list nat) : bool := existsb (Nat.eqb v) vs.

(** The assignment that gives 1 to the variables of [chosen] and 0 to the
    others. *)
Definition ind (chosen : list nat) : assignment :=
  λ v, if memb v chosen then 1%Z else 0%Z.

Definition holdsb (x : assignment) (cn : Constr) : bool :=
  match sense cn with
  | EQUAL => (eval x (lhs cn) =? rhs cn)%Z
  | LESS_EQUAL => (eval x (lhs cn) <=? rhs cn)%Z
  | GREATER_EQUAL => (rhs cn <=? eval x (lhs cn))%Z
  end.

(** [forallb], stopping at the first element that fails. *)
Fixpoint allb {A : Type} (t : A → bool) (xs : list A) : bool :=
  match xs with
  | [] => true
  | x :: xs' => if t x then allb t xs' else false
  end.

(** The variable a constraint of the form [v == 0] fixes. *)
Definition is_fix_to_zero (cn : Constr) : option nat :=
  match cn with
  | mkConstr (mkLinExpr [(1%Z, v)] 0%Z) EQUAL 0%Z => Some v
  | _ => None
  end.

Definition fixed_vars (mo : Model) : list nat := omap is_fix_to_zero (constrs mo).

Definition is_binary_var (mo : Model) (v : nat) : bool :=
  match vars mo !! v with
  | Some dcl => bool_decide (vtype dcl = BINARY)
  | None => false
  end.

Definition within (vs : list nat) (e : LinExpr) : bool :=
  forallb (λ t, memb t.2 vs) (terms e).

(** One variable is chosen in each block, in turn; a variable fixed to 0 is
    passed over; [leaf] judges every complete choice. *)
Fixpoint search (fixed : list nat) (leaf : list nat → bool)
    (blocks : list (list nat)) (chosen : list nat) : bool :=
  match blocks with
  | [] => leaf chosen
  | blk :: rest =>
      allb (λ v, if memb v fixed then true
                 else search fixed leaf rest (v :: chosen)) blk
  end.

(** A complete choice either breaks one of the constraints [cs] or has an
    objective value of at least [bound]. *)
Definition leaf_bound (mo : Model) (cs : list Constr) (bound : Z)
    (chosen : list nat) : bool :=
  if allb (holdsb (ind chosen)) cs
  then (bound <=? value mo (ind chosen))%Z
  else true.

(** The blocks are disjoint lists of binary variables, each with its
    [exactly_one] constraint in the model; the objective and the constraints
    after the first [n] mention no other variable; and no choice of one
    variable per block that meets those constraints has a value below
    [bound]. *)
Definition certificate (mo : Model) (blocks : list (list nat)) (n : nat)
    (bound : Z) : bool :=
  bool_decide (NoDup (concat blocks))
  && bool_decide (Forall (λ blk, exactly_one blk ∈ constrs mo) blocks)
  && forallb (is_binary_var mo) (concat blocks)
  && within (concat blocks) (objective mo)
  && forallb (λ cn, within (concat blocks) (lhs cn)) (drop n (constrs mo))
  && search (fixed_vars mo) (leaf_bound mo (drop n (constrs mo)) bound) blocks [].

(** The model the cells build from [example], written out. *)
Definition example_model : Model := Eval vm_compute in built_model example.

(** The variables of the three facilities. *)
Definition example_blocks : list (list nat) := [seq 0 32; seq 32 32; seq 64 32].

(** ** Plans: which customers each facility serves *)

(** The task the notebook states: [chosen i] is the set of customers that
    facility [i] serves; it is a pattern, its demand fits the capacity of
    the facility, and every customer is served by one facility and no
    other. *)
Record serves (d : data) (chosen : nat → pattern) : Prop := {
  serves_pattern : ∀ i, i ∈ I d → chosen i ∈ patterns (J d);
  serves_capacity : ∀ i, i ∈ I d →
    (total_over (λ j, b d !!! j) (chosen i) ≤ C d !!! i)%Z;
  serves_once : ∀ j, j ∈ J d →
    ∃ i, i ∈ I d ∧ j ∈ chosen i ∧ ∀ i', i' ∈ I d → j ∈ chosen i' → i' = i
}.

(** What a facility costs when it serves [p]: nothing when [p] is empty,
    else its opening cost and the connection costs to the customers of [p]. *)
Definition service_cost (d : data) (i : nat) (p : pattern) : Z :=
  if decide (p = []) then 0%Z
  else (f d !!! i + total_over (λ j, c d !!! (i, j)) p)%Z.

Definition plan_cost (d : data) (chosen : nat → pattern) : Z :=
  total_over (λ i, service_cost d i (chosen i)) (I d).

(** What a plan costs in the model: the coefficients of the variables it
    chooses. *)
Definition plan_value (d : data) (chosen : nat → pattern) : Z :=
  total_over (λ i, coeff_of (cost_of d (i, chosen i))) (I d).

(** The assignment of the variables that a plan stands for. *)
Definition plan_assignment (d : data) (l : gmap key nat)
    (chosen : nat → pattern) : assignment :=
  ind ((λ i, l !!! (i, chosen i)) <$> I d).

(** [x] gives 1 to the variable of [chosen i] and 0 to the variables of the
    other patterns, at every facility. *)
Definition selects (d : data) (l : gmap key nat) (x : assignment)
    (chosen : nat → pattern) : Prop :=
  ∀ i p, i ∈ I d → p ∈ patterns (J d) →
    x (l !!! (i, p)) = if decide (p = chosen i) then 1%Z else 0%Z.

(** One facility of capacity 2 and one customer of demand 3. *)
Definition overloaded : data :=
  Data (builtins.range 1) (builtins.range 1) [3]%Z [1]%Z [2]%Z
    (dict_display [((0, 0), 1%Z)]).

(** ** Orders and counts on patterns *)

(** The order of tuples of integers: the first position that differs
    decides, and a proper prefix comes first. *)
Inductive lex_lt : list nat → list nat → Prop :=
| lex_lt_nil y ys : lex_lt [] (y :: ys)
| lex_lt_head x y xs ys : x < y → lex_lt (x :: xs) (y :: ys)
| lex_lt_tail x xs ys : lex_lt xs ys → lex_lt (x :: xs) (x :: ys).

(** Shorter first; among tuples of one length, the smaller first. *)
Definition shortlex (p q : list nat) : Prop :=
  length p < length q ∨ (length p = length q ∧ lex_lt p q).

(** How many elements of [xs] pass the test [t]. *)
Definition count_if {A : Type} (t : A → bool) (xs : list A) : nat :=
  length (filter (λ a, t a = true) xs).

(** One customer and no facility; one facility and no customer. *)
Definition unserved : data :=
  Data (builtins.range 0) (builtins.range 1) [3]%Z [] [] ∅.

Definition idle : data :=
  Data (builtins.range 1) (builtins.range 0) [] [1]%Z [2]%Z ∅.

(** The keys [(i, j)] of [for i in I for j in J]. *)
Definition cost_keys (d : data) : list (nat * nat) :=
  i ← I d; (λ j, (i, j)) <$> J d.

(** One facility whose opening cost, 10^400, lies beyond the doubles. *)
Definition huge : data :=
  Data (builtins.range 1) (builtins.range 1) [0]%Z [10 ^ 400]%Z [0]%Z
    (dict_display [((0, 0), 1%Z)]).

(** * Properties *)

(** ** The pattern enumerator *)

Section enumerator.
Context {A : Type}.
Implicit Types (pool p : list A) (r k : nat).

Lemma combinations_0 pool : combinations pool 0 = [[]].
Proof. by destruct pool. Qed.

Lemma elem_of_combinations pool r p :
  p ∈ combinations pool r ↔ p `sublist_of` pool ∧ length p = r.
Proof.
  revert r p. induction pool as [|x xs IH]; intros [|r] p; simpl.
  - rewrite list_elem_of_singleton, sublist_nil_r.
    split; [by intros ->|by intros [-> _]].
  - rewrite elem_of_nil, sublist_nil_r. split; [done|by intros [-> ?]].
  - rewrite list_elem_of_singleton. split.
    + intros ->. split; [apply sublist_nil_l|done].
    + intros [_ Hlen]. by destruct p.
  - rewrite elem_of_app, list_elem_of_fmap, sublist_cons_r, IH. split.
    + intros [(q & -> & [Hq Hlen]%IH)|[Hp Hlen]].
      * split; [right; eauto|by simpl; f_equal].
      * by split; [left|].
    + intros [[Hp|(q & -> & Hq)] Hlen].
      * by right.
      * left. exists q. split; [done|]. apply IH. simpl in Hlen. by simplify_eq.
Qed.

Lemma combinations_gt pool r : length pool < r → combinations pool r = [].
Proof.
  intros Hlt. destruct (combinations pool r) as [|p ps] eqn:Heq; [done|].
  assert (p ∈ combinations pool r) as [Hsub <-]%elem_of_combinations
    by (rewrite Heq; left).
  apply sublist_length in Hsub. lia.
Qed.

Lemma NoDup_combinations pool r : NoDup pool → NoDup (combinations pool r).
Proof.
  intros Hpool. revert r. induction Hpool as [|x xs Hx _ IH]; intros [|r]; simpl.
  - apply NoDup_singleton.
  - constructor.
  - apply NoDup_singleton.
  - apply NoDup_app. split_and!.
    + apply (NoDup_fmap_2 _), IH.
    + intros p (q & -> & _)%list_elem_of_fmap [Hsub _]%elem_of_combinations.
      apply Hx. eapply elem_of_sublist; [|done]. left.
    + apply IH.
Qed.

Lemma groups_S pool k :
  groups pool (S k) = groups pool k ++ combinations pool k.
Proof.
  unfold groups, chain_from_iterable, builtins.range.
  rewrite seq_S, fmap_app, concat_app. simpl. by rewrite app_nil_r.
Qed.

Lemma elem_of_groups pool k p :
  p ∈ groups pool k ↔ p `sublist_of` pool ∧ length p < k.
Proof.
  induction k as [|k IH].
  - unfold groups. simpl. rewrite elem_of_nil. split; [done|lia].
  - rewrite groups_S, elem_of_app, IH, elem_of_combinations. clear IH.
    split.
    + intros [[? ?]|[? ?]]; (split; [done|lia]).
    + intros [? ?].
      destruct (decide (length p = k)); [right|left]; (split; [done|lia]).
Qed.

Lemma length_groups_cons x pool k :
  length (groups (x :: pool) (S k)) =
  length (groups pool (S k)) + length (groups pool k).
Proof.
  induction k as [|k IH].
  - unfold groups. simpl. by rewrite combinations_0.
  - rewrite (groups_S _ (S k)), (groups_S pool (S k)), (groups_S pool k).
    rewrite !length_app, IH, (groups_S pool k). simpl.
    rewrite !length_app, length_fmap. lia.
Qed.

Lemma length_groups_all pool :
  length (groups pool (length pool + 1)) = 2 ^ length pool.
Proof.
  induction pool as [|x xs IH]; [done|].
  replace (length (x :: xs) + 1) with (S (length xs + 1)) by (simpl; lia).
  rewrite length_groups_cons, groups_S, length_app, IH.
  rewrite combinations_gt by lia. simpl. lia.
Qed.

Lemma NoDup_groups pool k : NoDup pool → NoDup (groups pool k).
Proof.
  intros Hpool. induction k as [|k IH]; [constructor|].
  rewrite groups_S. apply NoDup_app. split_and!; [done| |].
  - intros p [_ Hlt]%elem_of_groups [_ Heq]%elem_of_combinations. lia.
  - by apply NoDup_combinations.
Qed.

Lemma groups_sorted pool k :
  StronglySorted (λ p q, length p ≤ length q) (groups pool k).
Proof.
  induction k as [|k IH]; [constructor|].
  rewrite groups_S. apply StronglySorted_app_2; [|done|].
  - intros p q [_ Hlt]%elem_of_groups [_ Heq]%elem_of_combinations. lia.
  - assert (Forall (λ p, length p = k) (combinations pool k)) as Hall.
    { apply Forall_forall. by intros p [_ ?]%elem_of_combinations. }
    induction Hall as [|p ps Hp Hps IHps]; constructor; [done|].
    eapply Forall_impl; [exact Hps|]. simpl. intros q Hq. lia.
Qed.

End enumerator.

Lemma patterns_groups (J : list nat) : patterns J = groups J (length J + 1).
Proof. done. Qed.

Lemma elem_of_patterns (J : list nat) (p : pattern) :
  p ∈ patterns J ↔ p `sublist_of` J.
Proof.
  rewrite patterns_groups, elem_of_groups. split; [by intros [? _]|].
  intros Hsub. split; [done|]. apply sublist_length in Hsub. lia.
Qed.

Lemma patterns_drawn_from (J : list nat) (p : pattern) (j : nat) :
  p ∈ patterns J → j ∈ p → j ∈ J.
Proof. intros Hp%elem_of_patterns Hj. by eapply elem_of_sublist. Qed.

(** ** The monad *)

Lemma bind_inr {A B : Type} (ma : M A) (k : A → M B) st st' a :
  ma st = (st', inr a) → bind ma k st = k a st'.
Proof. unfold bind. by intros ->. Qed.

Lemma bind_inl {A B : Type} (ma : M A) (k : A → M B) st st' x :
  ma st = (st', inl x) → bind ma k st = (st', inl x).
Proof. unfold bind. by intros ->. Qed.

Lemma for_app {A : Type} (xs ys : list A) (body : A → M unit) st :
  for_ (xs ++ ys) body st = (for_ xs body ;; for_ ys body) st.
Proof.
  revert st. induction xs as [|x xs IH]; intros st; [done|].
  simpl. unfold bind at 1 2 3. destruct (body x st) as [st' [e|[]]]; [done|].
  rewrite IH. done.
Qed.

Lemma for_fmap {A B : Type} (h : A → B) (xs : list A) (body : B → M unit) st :
  for_ (h <$> xs) body st = for_ xs (λ x, body (h x)) st.
Proof.
  revert st. induction xs as [|x xs IH]; intros st; [done|].
  simpl. unfold bind. destruct (body (h x) st) as [st' [e|[]]]; [done|]. apply IH.
Qed.

Lemma for_nested (Is : list nat) (P : list pattern)
    (body : nat → pattern → M unit) st :
  for_ Is (λ i, for_ P (body i)) st = for_ (pairs Is P) (λ k, body k.1 k.2) st.
Proof.
  revert st. induction Is as [|i Is IH]; intros st; [done|].
  change (pairs (i :: Is) P) with (((λ p, (i, p)) <$> P) ++ pairs Is P).
  rewrite for_app. simpl. unfold bind. rewrite for_fmap. simpl.
  destruct (for_ P _ st) as [st' [e|[]]]; [done|]. apply IH.
Qed.

Lemma genexp_fmap {A B : Type} (g : A → E B) (h : A → B) (xs : list A) :
  (∀ x, x ∈ xs → g x = inr (h x)) → genexp g xs = inr (h <$> xs).
Proof.
  induction xs as [|x xs IH]; intros Hg; [done|].
  simpl. rewrite Hg by left. simpl. rewrite IH; [done|].
  intros y Hy. apply Hg. by right.
Qed.

Lemma index_lt {A : Type} `{Inhabited A} (t : list A) (i : nat) :
  i < length t → index t i = inr (t !!! i).
Proof.
  intros Hlt. unfold index. destruct (lookup_lt_is_Some_2 t i Hlt) as [a Ha].
  rewrite Ha. by rewrite (list_lookup_total_correct _ _ _ Ha).
Qed.

Lemma getitem_Some `{Countable K} {A : Type} `{Inhabited A}
    (m : gmap K A) (k : K) :
  is_Some (m !! k) → getitem m k = inr (m !!! k).
Proof.
  intros [a Ha]. unfold getitem. rewrite Ha.
  by rewrite (lookup_total_correct _ _ _ Ha).
Qed.

Lemma getitem_None `{Countable K} {A : Type} (m : gmap K A) (k : K) :
  m !! k = None → getitem m k = inl KeyError.
Proof. unfold getitem. by intros ->. Qed.

Lemma bind_inr_inv {A B : Type} (ma : M A) (k : A → M B) st st' y :
  bind ma k st = (st', inr y) →
  ∃ st1 a, ma st = (st1, inr a) ∧ k a st1 = (st', inr y).
Proof.
  unfold bind. destruct (ma st) as [st1 [e|a]]; [done|]. intros Hk. by exists st1, a.
Qed.

Lemma for_inr_inv {A : Type} (xs : list A) (body : A → M unit) st st' x :
  for_ xs body st = (st', inr tt) → x ∈ xs →
  ∃ s1 s2, body x s1 = (s2, inr tt).
Proof.
  revert st. induction xs as [|y xs IH]; intros st Hrun Hx.
  { by apply elem_of_nil in Hx. }
  simpl in Hrun. apply bind_inr_inv in Hrun as (st1 & [] & Hy & Hrest).
  apply elem_of_cons in Hx as [->|Hx]; [by exists st, st1|]. by eapply IH.
Qed.

(** ** The model's updates *)

Lemma add_vars_nil mo : add_vars mo [] = mo.
Proof. destruct mo. unfold add_vars. simpl. by rewrite app_nil_r. Qed.

Lemma add_vars_app mo ds1 ds2 :
  add_vars (add_vars mo ds1) ds2 = add_vars mo (ds1 ++ ds2).
Proof. unfold add_vars. simpl. by rewrite app_assoc. Qed.

Lemma add_constrs_nil mo : add_constrs mo [] = mo.
Proof. destruct mo. unfold add_constrs. simpl. by rewrite app_nil_r. Qed.

Lemma add_constrs_app mo cs1 cs2 :
  add_constrs (add_constrs mo cs1) cs2 = add_constrs mo (cs1 ++ cs2).
Proof. unfold add_constrs. simpl. by rewrite app_assoc. Qed.

Lemma set_m_same st mo : g_m st = Some mo → set_m mo st = st.
Proof. destruct st. simpl. by intros ->. Qed.

(** ** The loops *)

Lemma var_loop (ks : list key) st mo :
  g_m st = Some mo →
  for_ ks (λ k, var_body k.1 k.2) st =
    (set_l (assign ks (length (vars mo)) (g_l st))
       (set_m (add_vars mo (decl <$> ks)) st), inr tt).
Proof.
  revert st mo. induction ks as [|[i p] ks IH]; intros st mo Hm.
  - simpl. rewrite add_vars_nil, set_m_same by done. by destruct st.
  - assert (var_body i p st =
      (set_l (<[(i, p) := length (vars mo)]> (g_l st))
         (set_m (add_vars mo [decl (i, p)]) st), inr tt)) as Hbody.
    { unfold var_body, addVar, bind, the_model, modify, ret. by rewrite Hm. }
    simpl. rewrite (bind_inr _ _ _ _ _ Hbody).
    rewrite (IH _ (add_vars mo [decl (i, p)])) by done.
    rewrite add_vars_app. simpl. rewrite length_app, Nat.add_1_r. done.
Qed.

Lemma cost_loop (d : data) (ks : list key) st :
  (∀ k, k ∈ ks → ∃ z, pattern_cost d k.1 k.2 = inr z) →
  for_ ks (λ k, cost_body d k.1 k.2) st =
    (set_cost (fill (cost_of d) ks (g_cost st)) st, inr tt).
Proof.
  revert st. induction ks as [|[i p] ks IH]; intros st Hok.
  - simpl. by destruct st.
  - destruct (Hok (i, p)) as [z Hz]; [left|]. simpl in Hz.
    assert (cost_body d i p st =
      (set_cost (<[(i, p) := cost_of d (i, p)]> (g_cost st)) st, inr tt)) as Hbody.
    { unfold cost_body, bind, lift, modify, cost_of. simpl. by rewrite Hz. }
    simpl. rewrite (bind_inr _ _ _ _ _ Hbody).
    rewrite IH; [done|]. intros k Hk. apply Hok. by right.
Qed.

Lemma constr_loop {A : Type} (xs : list A) (body : A → M unit)
    (cs : A → list Constr) (l : gmap key nat) :
  (∀ x st mo, x ∈ xs → g_l st = l → g_m st = Some mo →
     body x st = (set_m (add_constrs mo (cs x)) st, inr tt)) →
  ∀ st mo, g_l st = l → g_m st = Some mo →
    for_ xs body st = (set_m (add_constrs mo (xs ≫= cs)) st, inr tt).
Proof.
  induction xs as [|x xs IH]; intros Hbody st mo Hl Hm.
  - simpl. by rewrite add_constrs_nil, set_m_same.
  - simpl. rewrite (bind_inr _ _ _ _ _ (Hbody x st mo ltac:(left) Hl Hm)).
    rewrite (IH ltac:(intros; apply Hbody; [by right|done..])
               _ (add_constrs mo (cs x))) by done.
    by rewrite add_constrs_app.
Qed.

Lemma bind_singleton {A B : Type} (h : A → B) (xs : list A) :
  xs ≫= (λ x, [h x]) = h <$> xs.
Proof. induction xs as [|x xs IH]; [done|]. csimpl. by rewrite IH. Qed.

(** ** The dictionaries the loops fill *)

Lemma assign_lookup (ks : list key) (n : nat) (l : gmap key nat) (k : key)
    (v : nat) :
  assign ks n l !! k = Some v →
  (l !! k = Some v ∧ k ∉ ks) ∨ (∃ idx : nat, ks !! idx = Some k ∧ v = n + idx).
Proof.
  revert n l. induction ks as [|k0 ks IH]; intros n l Hv; simpl in Hv.
  { left. split; [done|apply not_elem_of_nil]. }
  apply IH in Hv as [[Hv Hnotin]|(idx & Hidx & ->)].
  - destruct (decide (k0 = k)) as [->|Hne].
    + rewrite lookup_insert_eq in Hv. simplify_eq.
      right. exists 0. split; [done|lia].
    + rewrite lookup_insert_ne in Hv by done.
      left. split; [done|]. rewrite not_elem_of_cons. by split.
  - right. exists (S idx). split; [done|lia].
Qed.

Lemma assign_is_Some (ks : list key) (n : nat) (l : gmap key nat) (k : key) :
  k ∈ ks ∨ is_Some (l !! k) → is_Some (assign ks n l !! k).
Proof.
  revert n l. induction ks as [|k0 ks IH]; intros n l Hk; simpl.
  { destruct Hk as [Hk|Hk]; [by apply elem_of_nil in Hk|done]. }
  apply IH. destruct (decide (k0 = k)) as [->|Hne].
  - right. rewrite lookup_insert_eq. by eexists.
  - rewrite lookup_insert_ne by done.
    destruct Hk as [Hk|Hk]; [|by right].
    apply elem_of_cons in Hk as [->|Hk]; [done|by left].
Qed.

Lemma fill_lookup {V : Type} (g : key → V) (ks : list key) (m : gmap key V)
    (k : key) :
  fill g ks m !! k = if decide (k ∈ ks) then Some (g k) else m !! k.
Proof.
  revert m. induction ks as [|k0 ks IH]; intros m.
  { destruct (decide (k ∈ [])) as [Hin|_]; [by apply elem_of_nil in Hin|done]. }
  change (fill g (k0 :: ks) m) with (fill g ks (<[k0 := g k0]> m)).
  rewrite IH. destruct (decide (k ∈ ks)) as [Hin|Hnotin].
  - by rewrite decide_True by by right.
  - destruct (decide (k0 = k)) as [->|Hne].
    + rewrite lookup_insert_eq. by rewrite decide_True by left.
    + rewrite lookup_insert_ne by done.
      rewrite decide_False; [done|]. rewrite not_elem_of_cons. by split.
Qed.

Lemma elem_of_pairs (Is : list nat) (P : list pattern) (i : nat) (p : pattern) :
  (i, p) ∈ pairs Is P ↔ i ∈ Is ∧ p ∈ P.
Proof.
  unfold pairs. rewrite list_elem_of_bind. split.
  - intros (i' & (p' & Heq & Hp)%list_elem_of_fmap & Hi). by simplify_eq.
  - intros [Hi Hp]. exists i. split; [|done]. apply list_elem_of_fmap. by exists p.
Qed.

Lemma built_l_is_Some (d : data) (k : key) : k ∈ built_pairs d → is_Some (built_l d !! k).
Proof. intros Hk. apply assign_is_Some. by left. Qed.

Lemma built_l_lookup (d : data) (k : key) (v : nat) :
  built_l d !! k = Some v → built_pairs d !! v = Some k.
Proof.
  intros [[Hv _]|(idx & Hidx & ->)]%assign_lookup; [|done].
  by rewrite lookup_empty in Hv.
Qed.

Lemma built_l_total (d : data) (k : key) :
  k ∈ built_pairs d → built_pairs d !! (built_l d !!! k) = Some k.
Proof.
  intros [v Hv]%built_l_is_Some. rewrite (lookup_total_correct _ _ _ Hv).
  by apply built_l_lookup.
Qed.

Lemma built_l_inj (d : data) (k1 k2 : key) :
  k1 ∈ built_pairs d → k2 ∈ built_pairs d →
  built_l d !!! k1 = built_l d !!! k2 → k1 = k2.
Proof.
  intros H1%built_l_total H2%built_l_total Heq. rewrite Heq in H1. congruence.
Qed.

Lemma built_cost_lookup (d : data) (k : key) :
  k ∈ built_pairs d → built_cost d !! k = Some (cost_of d k).
Proof.
  intros Hk. unfold built_cost. rewrite fill_lookup. by rewrite decide_True.
Qed.

(** ** What [data_ok] gives the loops *)

Lemma checks_true (d : data) :
  checks d = true ↔
  length (J d) = length (b d) ∧ length (I d) = length (f d) ∧
  length (f d) = length (C d) ∧ size (c d) = length (I d) * length (J d).
Proof.
  unfold checks, check_demands, check_facilities, check_costs.
  rewrite !andb_true_iff, !Nat.eqb_eq. tauto.
Qed.

Lemma sum_foldr (zs : list Z) (a : Z) :
  foldl Z.add a zs = (a + foldr Z.add 0 zs)%Z.
Proof.
  revert a. induction zs as [|z zs IH]; intros a; simpl; [lia|]. rewrite IH. lia.
Qed.

(** When the opening cost and the connection costs can be read, the cost
    of a non-empty pattern is their sum in doubles. *)
Lemma pattern_cost_reads (d : data) (i : nat) (p : pattern) :
  i < length (f d) → (∀ j, j ∈ p → is_Some (c d !! (i, j))) → p ≠ [] →
  pattern_cost d i p =
    E_bind (cost_sum (f d !!! i) ((λ j, c d !!! (i, j)) <$> p))
      (λ x, inr (Const x)).
Proof.
  intros Hi Hc Hne. unfold pattern_cost.
  assert ((length p =? 0) = false) as -> by (apply Nat.eqb_neq; by destruct p).
  rewrite (index_lt (f d) i) by done.
  rewrite (genexp_fmap _ (λ j, c d !!! (i, j))); [done|].
  intros j' Hj'. by apply getitem_Some, Hc.
Qed.

Section data_ok.
Context (d : data) (Hok : data_ok d).

Lemma pattern_cost_sum (i : nat) (p : pattern) :
  i ∈ I d → p ∈ patterns (J d) → p ≠ [] →
  pattern_cost d i p =
    E_bind (cost_sum (f d !!! i) ((λ j, c d !!! (i, j)) <$> p))
      (λ x, inr (Const x)).
Proof using Hok.
  intros Hi Hp Hne. apply pattern_cost_reads; [by apply Hok| |done].
  intros j Hj. apply Hok; [done|]. by eapply patterns_drawn_from.
Qed.

(** The cost of a pattern is the integer 0 or a constant that is finite. *)
Lemma pattern_cost_ok (i : nat) (p : pattern) :
  i ∈ I d → p ∈ patterns (J d) →
  ∃ w, pattern_cost d i p
       = inr (if decide (p = []) then Int 0 else Const (Finite w))
     ∧ (p ≠ [] →
        cost_sum (f d !!! i) ((λ j, c d !!! (i, j)) <$> p) = inr (Finite w)).
Proof using Hok.
  intros Hi Hp. destruct (decide (p = [])) as [->|Hne]; [by exists 0%Z|].
  destruct (ok_finite _ Hok i p Hi Hp Hne) as [w Hw]. exists w.
  split; [|done]. by rewrite pattern_cost_sum, Hw.
Qed.

Lemma pattern_cost_coefficient (i : nat) (p : pattern) :
  i ∈ I d → p ∈ patterns (J d) →
  ∃ z, coefficient (cost_of d (i, p)) = inr (Finite z).
Proof using Hok.
  intros Hi Hp. unfold cost_of. simpl.
  destruct (pattern_cost_ok i p Hi Hp) as (w & -> & _).
  destruct (decide (p = [])); [by exists 0%Z|by exists w].
Qed.

Lemma demand_ok (i : nat) (p : pattern) :
  i ∈ I d → p ∈ patterns (J d) →
  demand d p = inr (builtins.sum ((λ j, b d !!! j) <$> p)).
Proof using Hok.
  intros Hi Hp. unfold demand.
  rewrite (genexp_fmap _ (λ j, b d !!! j)); [done|].
  intros j Hj. apply index_lt. eapply (ok_customer _ Hok); [done|].
  by eapply patterns_drawn_from.
Qed.

Lemma capacity_ok (i : nat) : i ∈ I d → index (C d) i = inr (C d !!! i).
Proof using Hok.
  intros Hi. apply index_lt.
  destruct (proj1 (checks_true d) (ok_checks _ Hok)) as (_ & _ & <- & _).
  by apply Hok.
Qed.

End data_ok.

(** ** The cells *)

Lemma bind_modify {B : Type} (g : state → state) (k : unit → M B) st :
  bind (modify g) k st = k tt (g st).
Proof. done. Qed.

Lemma bind_gets {A B : Type} (g : state → A) (k : A → M B) st :
  bind (gets g) k st = k (g st) st.
Proof. done. Qed.

Lemma bind_lift {A B : Type} (e : E A) (k : A → M B) st a :
  e = inr a → bind (lift e) k st = k a st.
Proof. by intros ->. Qed.

Lemma addConstr_spec (cn : Constr) st mo :
  g_m st = Some mo → addConstr cn st = (set_m (add_constrs mo [cn]) st, inr tt).
Proof. intros Hm. unfold addConstr, bind, the_model, modify. by rewrite Hm. Qed.

Lemma data_cell_spec (d : data) st :
  data_cell d st =
    (set_P (patterns (J d)) st, if checks d then inr tt else inl AssertionError).
Proof.
  unfold data_cell, checks, bind, modify, assert, ret, raise.
  by destruct (check_demands d), (check_facilities d), (check_costs d).
Qed.

Lemma var_cell_spec (d : data) st mo :
  g_m st = Some mo →
  var_cell d st =
    (set_l (assign (pairs (I d) (g_P st)) (length (vars mo)) ∅)
       (set_m (add_vars mo (decl <$> pairs (I d) (g_P st))) st), inr tt).
Proof.
  intros Hm. unfold var_cell. rewrite bind_modify, bind_gets, for_nested.
  rewrite (var_loop _ _ mo) by done. by destruct st.
Qed.

Lemma cost_cell_spec (d : data) st :
  (∀ k, k ∈ pairs (I d) (g_P st) → ∃ z, pattern_cost d k.1 k.2 = inr z) →
  cost_cell d st =
    (set_cost (fill (cost_of d) (pairs (I d) (g_P st)) ∅) st, inr tt).
Proof.
  intros Hok. unfold cost_cell. rewrite bind_modify, bind_gets, for_nested.
  rewrite cost_loop by done. by destruct st.
Qed.

Lemma genexp_compose {A B D : Type} (g : B → E D) (h : A → B) (xs : list A) :
  genexp g (h <$> xs) = genexp (λ x, g (h x)) xs.
Proof.
  induction xs as [|x xs IH]; [done|].
  rewrite fmap_cons. cbn [genexp]. by rewrite IH.
Qed.

Lemma the_model_Some {B : Type} (k : Model → M B) st mo :
  g_m st = Some mo → bind the_model k st = k mo st.
Proof. intros Hm. unfold bind, the_model. by rewrite Hm. Qed.

Lemma objective_cell_spec (d : data) st mo :
  g_m st = Some mo →
  (∀ k, k ∈ pairs (I d) (g_P st) →
     (∃ w z, g_cost st !! k = Some w ∧ coefficient w = inr (Finite z))
     ∧ is_Some (g_l st !! k)) →
  objective_cell d st =
    (set_m (set_objective mo
              (quicksum_terms
                 ((λ k, (coeff_of (g_cost st !!! k), g_l st !!! k))
                    <$> pairs (I d) (g_P st)))
              MINIMIZE) st, inr tt).
Proof.
  intros Hm Hok. unfold objective_cell.
  rewrite (the_model_Some _ _ _ Hm), !bind_gets.
  erewrite bind_lift; last first.
  { apply (genexp_fmap _
      (λ k, (value_of NaN (coefficient (g_cost st !!! k)), g_l st !!! k))).
    intros k [(w & z & Hc & Hz) Hl]%Hok. unfold objective_term.
    rewrite (getitem_Some _ _ (mk_is_Some _ _ Hc)), (getitem_Some _ _ Hl).
    simpl. by rewrite (lookup_total_correct _ _ _ Hc), Hz. }
  erewrite bind_lift; last first.
  { rewrite genexp_compose.
    apply (genexp_fmap _ (λ k, (coeff_of (g_cost st !!! k), g_l st !!! k))).
    intros k [(w & z & Hc & Hz) _]%Hok. unfold finite_term, coeff_of. simpl.
    by rewrite (lookup_total_correct _ _ _ Hc), Hz. }
  unfold setObjective, bind, the_model, modify. by rewrite Hm.
Qed.

(** Unfolds the reads and writes of the globals, and nothing else. *)
Ltac norm_state :=
  unfold set_P, set_m, set_l, set_cost, add_log, add_vars, add_constrs,
    set_objective, new_Model;
  cbn [g_P g_m g_l g_cost g_log mname vars objective objsense constrs length app].

Ltac norm_state_in H :=
  unfold set_P, set_m, set_l, set_cost, add_log, add_vars, add_constrs,
    set_objective, new_Model in H;
  cbn [g_P g_m g_l g_cost g_log mname vars objective objsense constrs length app]
    in H.

Section cells_ok.
Context (d : data) (Hok : data_ok d).

Lemma capacity_cell_spec st mo :
  g_m st = Some mo → g_P st = patterns (J d) →
  (∀ k, k ∈ built_pairs d → is_Some (g_l st !! k)) →
  capacity_cell d st =
    (set_m (add_constrs mo (capacity_constrs d (g_l st) (built_pairs d))) st,
     inr tt).
Proof using Hok.
  intros Hm HP Hl. unfold capacity_cell. rewrite bind_gets, HP, for_nested.
  apply (constr_loop _ _ _ (g_l st)); [|done..].
  intros [i p] st' mo' [Hi Hp]%elem_of_pairs Hl' Hm'. simpl.
  unfold capacity_body, exceeds, demand_of. simpl.
  rewrite (bind_lift _ _ _ _ (demand_ok d Hok i p Hi Hp)).
  rewrite (bind_lift _ _ _ _ (capacity_ok d Hok i Hi)).
  rewrite (demand_ok d Hok i p Hi Hp), (capacity_ok d Hok i Hi). simpl.
  destruct (_ <? _)%Z.
  - rewrite (the_model_Some _ _ _ Hm'), bind_gets, Hl'.
    erewrite bind_lift; [|apply getitem_Some, Hl; by apply elem_of_pairs].
    by apply addConstr_spec.
  - unfold ret. by rewrite add_constrs_nil, set_m_same.
Qed.

Lemma facility_cell_spec st mo :
  g_m st = Some mo → g_P st = patterns (J d) →
  (∀ k, k ∈ built_pairs d → is_Some (g_l st !! k)) →
  facility_cell d st =
    (set_m (add_constrs mo (facility_constrs d (g_l st) (patterns (J d)))) st,
     inr tt).
Proof using Type.
  intros Hm HP Hl. unfold facility_cell, facility_constrs.
  rewrite bind_gets, HP, <- bind_singleton.
  apply (constr_loop _ _ _ (g_l st)); [|done..].
  intros i st' mo' Hi Hl' Hm'. unfold facility_body.
  rewrite (the_model_Some _ _ _ Hm'), bind_gets, Hl'.
  erewrite bind_lift; last first.
  { apply (genexp_fmap _ (λ p, g_l st !!! (i, p))).
    intros p Hp. apply getitem_Some, Hl. by apply elem_of_pairs. }
  by apply addConstr_spec.
Qed.

Lemma customer_cell_spec st mo :
  g_m st = Some mo → g_P st = patterns (J d) →
  (∀ k, k ∈ built_pairs d → is_Some (g_l st !! k)) →
  customer_cell d st =
    (set_m (add_constrs mo (customer_constrs d (g_l st) (patterns (J d)))) st,
     inr tt).
Proof using Type.
  intros Hm HP Hl. unfold customer_cell, customer_constrs.
  rewrite bind_gets, HP, <- bind_singleton.
  apply (constr_loop _ _ _ (g_l st)); [|done..].
  intros j st' mo' Hj Hl' Hm'. unfold customer_body.
  rewrite (the_model_Some _ _ _ Hm'), bind_gets, Hl'.
  erewrite bind_lift; last first.
  { apply (genexp_fmap _ (λ k, g_l st !!! k)).
    intros k [_ Hk]%list_elem_of_filter. by apply getitem_Some, Hl. }
  by apply addConstr_spec.
Qed.

(** On data that is in order, the cells run to the end and leave the
    closed-form state behind, whatever the state they started from. *)
Lemma build_ok st : build d st = (built_state d st, inr tt).
Proof using Hok.
  unfold build.
  erewrite bind_inr; [|by rewrite data_cell_spec, (ok_checks _ Hok)].
  erewrite bind_inr; [|done]. norm_state.
  erewrite bind_inr; [|by eapply var_cell_spec]. norm_state.
  erewrite bind_inr; last first.
  { apply cost_cell_spec. intros [i p] [Hi Hp]%elem_of_pairs.
    destruct (pattern_cost_ok d Hok i p Hi Hp) as (w & Hw & _). by eexists. }
  norm_state.
  erewrite bind_inr; last first.
  { eapply objective_cell_spec; [done|]. intros [i p] Hk. split.
    - apply elem_of_pairs in Hk as Hip. destruct Hip as [Hi Hp].
      destruct (pattern_cost_coefficient d Hok i p Hi Hp) as [z Hz].
      exists (cost_of d (i, p)), z. split; [|done].
      exact (built_cost_lookup d _ Hk).
    - exact (built_l_is_Some d _ Hk). }
  norm_state.
  erewrite bind_inr; last first.
  { eapply capacity_cell_spec; [done..|]. exact (built_l_is_Some d). }
  norm_state.
  erewrite bind_inr; last first.
  { eapply facility_cell_spec; [done..|]. exact (built_l_is_Some d). }
  norm_state.
  erewrite customer_cell_spec; [|done..|exact (built_l_is_Some d)].
  norm_state. by rewrite <- app_assoc.
Qed.

End cells_ok.

(** ** What a run to the end says about the data *)

Lemma index_inr {A : Type} (t : list A) (i : nat) (a : A) :
  index t i = inr a → i < length t.
Proof.
  unfold index. destruct (t !! i) as [a'|] eqn:Hi; [|done].
  intros _. by eapply lookup_lt_Some.
Qed.

Lemma getitem_inr `{Countable K} {A : Type} (m : gmap K A) (k : K) (a : A) :
  getitem m k = inr a → m !! k = Some a.
Proof. unfold getitem. destruct (m !! k); [|done]. by intros [= ->]. Qed.

Lemma singleton_pattern (Js : list nat) (j : nat) : j ∈ Js → [j] ∈ patterns Js.
Proof. intros Hj. by apply elem_of_patterns, singleton_sublist_l. Qed.

Lemma empty_pattern (Js : list nat) : [] ∈ patterns Js.
Proof. apply elem_of_patterns, sublist_nil_l. Qed.

Lemma cost_cell_inr_inv (d : data) st st' (i : nat) (p : pattern) :
  cost_cell d st = (st', inr tt) → i ∈ I d → p ∈ g_P st →
  ∃ z, pattern_cost d i p = inr z.
Proof.
  unfold cost_cell. rewrite bind_modify, bind_gets, for_nested.
  intros Hrun Hi Hp.
  destruct (for_inr_inv _ _ _ _ (i, p) Hrun) as (s1 & s2 & Hbody).
  { by apply elem_of_pairs. }
  revert Hbody. unfold cost_body, bind, lift. simpl.
  destruct (pattern_cost d i p) as [e|z]; [done|]. by exists z.
Qed.

Lemma capacity_cell_inr_inv (d : data) st st' (i : nat) (p : pattern) :
  capacity_cell d st = (st', inr tt) → i ∈ I d → p ∈ g_P st →
  (∃ z, demand d p = inr z) ∧ (∃ z, index (C d) i = inr z).
Proof.
  unfold capacity_cell. rewrite bind_gets, for_nested.
  intros Hrun Hi Hp.
  destruct (for_inr_inv _ _ _ _ (i, p) Hrun) as (s1 & s2 & Hbody).
  { by apply elem_of_pairs. }
  revert Hbody. unfold capacity_body, bind, lift. simpl.
  destruct (demand d p) as [e|z]; [done|].
  destruct (index (C d) i) as [e|z']; [done|]. eauto.
Qed.

Lemma genexp_inr_inv {A B : Type} (g : A → E B) (xs : list A) (ys : list B)
    (x : A) :
  genexp g xs = inr ys → x ∈ xs → ∃ y, g x = inr y ∧ y ∈ ys.
Proof.
  revert ys. induction xs as [|x' xs IH]; intros ys Hrun Hx.
  { by apply elem_of_nil in Hx. }
  simpl in Hrun. destruct (g x') as [e|y'] eqn:Hy'; [done|]. simpl in Hrun.
  destruct (genexp g xs) as [e|ys'] eqn:Hys'; [done|]. simpl in Hrun.
  injection Hrun as <-. apply elem_of_cons in Hx as [->|Hx].
  - exists y'. split; [done|left].
  - destruct (IH ys' eq_refl Hx) as (y & Hy & Hin). exists y.
    split; [done|by right].
Qed.

Lemma objective_cell_inr_inv (d : data) st st' (k : key) :
  objective_cell d st = (st', inr tt) → k ∈ pairs (I d) (g_P st) →
  ∃ w z, g_cost st !! k = Some w ∧ coefficient w = inr (Finite z).
Proof.
  unfold objective_cell. intros Hrun Hk.
  destruct (g_m st) as [mo|] eqn:Hm; last first.
  { revert Hrun. unfold bind at 1, the_model. by rewrite Hm. }
  rewrite (the_model_Some _ _ _ Hm), !bind_gets in Hrun.
  apply bind_inr_inv in Hrun as (s1 & ts & Hts & Hrun).
  apply bind_inr_inv in Hrun as (s2 & cs & Hcs & _).
  unfold lift in Hts, Hcs. injection Hts as _ Hts. injection Hcs as _ Hcs.
  destruct (genexp_inr_inv _ _ _ _ Hts Hk) as (t & Ht & Hin).
  destruct (genexp_inr_inv _ _ _ _ Hcs Hin) as (cf & Hcf & _).
  revert Ht. unfold objective_term.
  destruct (getitem (g_cost st) k) as [e|w] eqn:Hw; [done|]. simpl.
  destruct (getitem (g_l st) k) as [e|v]; [done|]. simpl.
  destruct (coefficient w) as [e|x] eqn:Hx; [done|]. simpl. intros [= <-].
  revert Hcf. unfold finite_term. simpl. destruct x as [z| |]; [|done..].
  intros _. exists w, z. split; [by apply getitem_inr|done].
Qed.

Lemma build_inr_data_ok (d : data) st st' :
  build d st = (st', inr tt) → data_ok d.
Proof.
  unfold build. intros Hrun.
  apply bind_inr_inv in Hrun as (s1 & [] & Hdata & Hrun).
  apply bind_inr_inv in Hrun as (s2 & [] & Hmodel & Hrun).
  apply bind_inr_inv in Hrun as (s3 & [] & Hvar & Hrun).
  apply bind_inr_inv in Hrun as (s4 & [] & Hcost & Hrun).
  apply bind_inr_inv in Hrun as (s5 & [] & Hobj & Hrun).
  apply bind_inr_inv in Hrun as (s6 & [] & Hcap & _).
  rewrite data_cell_spec in Hdata.
  destruct (checks d) eqn:Hchecks; [|done].
  injection Hdata as <-. injection Hmodel as <-.
  rewrite (var_cell_spec d _ (new_Model "FacilityLocationWithPattern")) in Hvar
    by done.
  injection Hvar as <-.
  pose proof (λ i p, cost_cell_inr_inv d _ _ i p Hcost) as Hcosts.
  norm_state_in Hcosts.
  rewrite cost_cell_spec in Hcost; last first.
  { intros [i p] [Hi Hp]%elem_of_pairs. by apply Hcosts. }
  injection Hcost as <-.
  assert (∀ k, k ∈ built_pairs d →
            ∃ z, coefficient (cost_of d k) = inr (Finite z)) as Hfin.
  { intros k Hk.
    destruct (objective_cell_inr_inv d _ _ k Hobj Hk) as (w & z & Hw & Hz).
    norm_state_in Hw. change (built_cost d !! k = Some w) in Hw.
    rewrite (built_cost_lookup d k Hk) in Hw. injection Hw as <-.
    by exists z. }
  erewrite objective_cell_spec in Hobj; [|done|]; last first.
  { intros k Hk. split.
    - destruct (Hfin k Hk) as [z Hz]. exists (cost_of d k), z.
      split; [|done]. exact (built_cost_lookup d k Hk).
    - exact (built_l_is_Some d k Hk). }
  injection Hobj as <-.
  pose proof (λ i p, capacity_cell_inr_inv d _ _ i p Hcap) as Hcaps.
  norm_state_in Hcaps.
  apply checks_true in Hchecks as Hlen. destruct Hlen as (_ & _ & Hlen & _).
  assert (∀ i, i ∈ I d → i < length (f d)) as Hidx.
  { intros i Hi. destruct (Hcaps i [] Hi (empty_pattern _)) as [_ [z Hz]].
    rewrite Hlen. by eapply index_inr. }
  assert (∀ i j, i ∈ I d → j ∈ J d → is_Some (c d !! (i, j))) as Hkeys.
  { intros i j Hi Hj.
    destruct (Hcosts i [j] Hi (singleton_pattern _ _ Hj)) as [z Hz].
    revert Hz. unfold pattern_cost. simpl.
    destruct (index (f d) i) as [e|fi]; [done|]. simpl.
    destruct (getitem (c d) (i, j)) as [e|cij] eqn:Hc; [done|]. intros _.
    exists cij. by apply getitem_inr. }
  split; [done..| |done|].
  - intros i j Hi Hj.
    destruct (Hcaps i [j] Hi (singleton_pattern _ _ Hj)) as [[z Hz] _].
    revert Hz. unfold demand. simpl.
    destruct (index (b d) j) as [e|bj] eqn:Hbj; [done|]. intros _.
    by eapply index_inr.
  - intros i p Hi Hp Hne.
    destruct (Hfin (i, p)) as [z Hz]; [by apply elem_of_pairs|].
    destruct (Hcosts i p Hi Hp) as [w Hw].
    revert Hz Hw. unfold cost_of. simpl.
    rewrite pattern_cost_reads; [|by apply Hidx| |done]; last first.
    { intros j Hj. apply Hkeys; [done|]. by eapply patterns_drawn_from. }
    destruct (cost_sum _ _) as [e|x]; simpl; [done|].
    intros [= ->] _. by exists z.
Qed.

(** The cells run to the end exactly on the data that is in order. *)
Lemma build_inr_iff (d : data) st :
  (∃ st', build d st = (st', inr tt)) ↔ data_ok d.
Proof.
  split.
  - intros [st' Hrun]. by eapply build_inr_data_ok.
  - intros Hok. exists (built_state d st). by apply build_ok.
Qed.

(** ** The enumerator's contract *)

Lemma patterns_head (Js : list nat) : patterns Js !! 0 = Some [].
Proof.
  unfold patterns, chain_from_iterable, builtins.range.
  replace (length Js + 1) with (S (length Js)) by lia.
  simpl. by rewrite combinations_0.
Qed.

Lemma sublist_StronglySorted {A : Type} (R : relation A) (l1 l2 : list A) :
  l1 `sublist_of` l2 → StronglySorted R l2 → StronglySorted R l1.
Proof.
  induction 1 as [|x l1 l2 Hsub IH|x l1 l2 Hsub IH]; intros Hsorted.
  - constructor.
  - apply StronglySorted_cons in Hsorted as [Hall Hsorted].
    constructor; [by apply IH|].
    rewrite Forall_forall in Hall |- *. intros y Hy. apply Hall.
    by eapply elem_of_sublist.
  - apply StronglySorted_cons in Hsorted as [_ Hsorted]. by apply IH.
Qed.

Lemma StronglySorted_lt_NoDup (l : list nat) : StronglySorted lt l → NoDup l.
Proof.
  induction 1 as [|x l _ IH Hall]; constructor; [|done].
  intros Hx. rewrite Forall_forall in Hall. specialize (Hall x Hx). lia.
Qed.

Lemma sorted_same_elements (p q : list nat) :
  StronglySorted lt p → StronglySorted lt q → (∀ j, j ∈ p ↔ j ∈ q) → p = q.
Proof.
  intros Hp Hq Hpq. apply (StronglySorted_unique_strong lt); [|done..|].
  - intros. lia.
  - apply NoDup_Permutation; auto using StronglySorted_lt_NoDup.
Qed.

(** Every subset of the customers has a pattern with exactly its elements. *)
Lemma patterns_cover (Js S : list nat) :
  S ⊆ Js → ∃ p, p ∈ patterns Js ∧ ∀ j, j ∈ p ↔ j ∈ S.
Proof.
  intros Hsub. exists (filter (λ j, j ∈ S) Js). split.
  - apply elem_of_patterns, sublist_filter.
  - intros j. rewrite list_elem_of_filter. split; [by intros [? _]|].
    intros Hj. split; [done|]. by apply Hsub.
Qed.

(** C3: the enumerator yields 2^n patterns, which are exactly the
    subsequences of [J], so that every subset of [J] is among them; the
    empty pattern comes first, the sizes never decrease along the sequence,
    and every size from 0 to n occurs. *)
Theorem patterns_power_set (Js : list nat) :
  length (patterns Js) = 2 ^ length Js
  ∧ (∀ p, p ∈ patterns Js ↔ p `sublist_of` Js)
  ∧ (∀ S, S ⊆ Js → ∃ p, p ∈ patterns Js ∧ ∀ j, j ∈ p ↔ j ∈ S)
  ∧ patterns Js !! 0 = Some []
  ∧ StronglySorted (λ p q, length p ≤ length q) (patterns Js)
  ∧ (∀ p, p ∈ patterns Js → length p ≤ length Js)
  ∧ (∀ r, r ≤ length Js → ∃ p, p ∈ patterns Js ∧ length p = r).
Proof.
  split_and!.
  - apply length_groups_all.
  - apply elem_of_patterns.
  - apply patterns_cover.
  - apply patterns_head.
  - apply groups_sorted.
  - intros p Hp%elem_of_patterns. by apply sublist_length.
  - intros r Hr. exists (take r Js). split.
    + apply elem_of_patterns, sublist_take.
    + by apply length_take_le.
Qed.

(** When the customers are listed in increasing order, every pattern is
    increasing and without repetition, and a set of customers determines
    its pattern. *)
Lemma patterns_canonical_sorted (Js : list nat) :
  StronglySorted lt Js →
  (∀ p, p ∈ patterns Js → StronglySorted lt p ∧ NoDup p ∧ p ⊆ Js)
  ∧ NoDup (patterns Js)
  ∧ (∀ p q, p ∈ patterns Js → q ∈ patterns Js → (∀ j, j ∈ p ↔ j ∈ q) → p = q)
  ∧ (∀ S, S ⊆ Js →
       ∃ p, (p ∈ patterns Js ∧ ∀ j, j ∈ p ↔ j ∈ S)
            ∧ ∀ q, q ∈ patterns Js → (∀ j, j ∈ q ↔ j ∈ S) → q = p).
Proof.
  intros Hsorted.
  assert (∀ p, p ∈ patterns Js → StronglySorted lt p) as Hinc.
  { intros p Hp%elem_of_patterns. by eapply sublist_StronglySorted. }
  split_and!.
  - intros p Hp. split_and!; [by apply Hinc|by apply StronglySorted_lt_NoDup, Hinc|].
    by apply sublist_subseteq, elem_of_patterns.
  - by apply NoDup_groups, StronglySorted_lt_NoDup.
  - intros p q Hp Hq Hpq. apply sorted_same_elements; auto.
  - intros S [p [Hp HpS]]%patterns_cover. exists p. split; [done|].
    intros q Hq HqS. apply sorted_same_elements; auto.
    intros j. by rewrite HpS, HqS.
Qed.

Lemma range_sorted (n : nat) : StronglySorted lt (builtins.range n).
Proof.
  unfold builtins.range. generalize 0 as a.
  induction n as [|n IH]; intros a; simpl; constructor; [apply IH|].
  apply Forall_forall. intros k Hk%elem_of_seq. lia.
Qed.

(** C10: with the customers [J = range(n)], every pattern is a strictly
    increasing tuple of distinct customers of [J], the sequence has no
    repetition, two patterns with the same elements are the same pattern,
    and every subset of [J] has one and only one pattern. *)
Theorem patterns_canonical (n : nat) :
  let Js := builtins.range n in
  (∀ p, p ∈ patterns Js → StronglySorted lt p ∧ NoDup p ∧ p ⊆ Js)
  ∧ NoDup (patterns Js)
  ∧ length (patterns Js) = 2 ^ n
  ∧ (∀ p q, p ∈ patterns Js → q ∈ patterns Js → (∀ j, j ∈ p ↔ j ∈ q) → p = q)
  ∧ (∀ S, S ⊆ Js →
       ∃ p, (p ∈ patterns Js ∧ ∀ j, j ∈ p ↔ j ∈ S)
            ∧ ∀ q, q ∈ patterns Js → (∀ j, j ∈ q ↔ j ∈ S) → q = p).
Proof.
  intros Js.
  destruct (patterns_canonical_sorted Js (range_sorted n))
    as (Hinc & Hnodup & Hsame & Hone).
  split_and!; [done..| |done|done].
  rewrite patterns_groups, length_groups_all. unfold Js, builtins.range.
  by rewrite length_seq.
Qed.

(** ** The built model *)

Lemma sum_total (zs : list Z) : builtins.sum zs = total zs.
Proof. unfold builtins.sum, total. rewrite sum_foldr. lia. Qed.



Section built.
Context (d : data) (Hok : data_ok d).

Lemma exceeds_spec (i : nat) (p : pattern) :
  i ∈ I d → p ∈ patterns (J d) →
  exceeds d (i, p) = true ↔ (C d !!! i < total ((λ j, b d !!! j) <$> p))%Z.
Proof using Hok.
  intros Hi Hp. unfold exceeds, demand_of. simpl.
  rewrite (demand_ok d Hok i p Hi Hp), (capacity_ok d Hok i Hi). simpl.
  by rewrite Z.ltb_lt, sum_total.
Qed.

(** The capacity loop is the only place a variable is fixed to zero, and
    it fixes the variable of a pair exactly when the test succeeds. *)
Lemma fixed_iff_exceeds (k : key) (v : nat) :
  k ∈ built_pairs d → built_l d !! k = Some v →
  fix_to_zero v ∈ constrs (built_model d) ↔ exceeds d k = true.
Proof using Type.
  intros Hk Hv. apply lookup_total_correct in Hv as Hv'.
  unfold built_model. cbn [constrs]. rewrite !elem_of_app. split.
  - intros [Hcap|[Hfac|Hcust]].
    + apply list_elem_of_bind in Hcap as (k' & Hin & Hk').
      destruct (exceeds d k') eqn:Hex; [|by apply elem_of_nil in Hin].
      apply list_elem_of_singleton in Hin. injection Hin as Hin.
      rewrite <- Hv' in Hin. by rewrite (built_l_inj d k k' Hk Hk' Hin).
    + by apply list_elem_of_fmap in Hfac as (i & [=] & _).
    + by apply list_elem_of_fmap in Hcust as (j & [=] & _).
  - intros Hex. left. apply list_elem_of_bind. exists k. split; [|done].
    rewrite Hex, Hv'. by apply list_elem_of_singleton.
Qed.

End built.

(** ** Sums in doubles *)

Lemma total_over_cons {A : Type} (g : A → Z) (a : A) (xs : list A) :
  total_over g (a :: xs) = (g a + total_over g xs)%Z.
Proof. done. Qed.

Lemma total_over_sublist_le (h : nat → Z) (p q : list nat) :
  (∀ j, j ∈ q → (0 ≤ h j)%Z) → p `sublist_of` q →
  (total_over h p ≤ total_over h q)%Z.
Proof.
  intros Hpos Hsub. induction Hsub as [|j p q Hsub IH|j p q Hsub IH].
  - done.
  - rewrite !total_over_cons.
    assert (total_over h p ≤ total_over h q)%Z.
    { apply IH. intros j' Hj'. apply Hpos. by right. }
    lia.
  - rewrite total_over_cons.
    assert (total_over h p ≤ total_over h q)%Z.
    { apply IH. intros j' Hj'. apply Hpos. by right. }
    assert (0 ≤ h j)%Z by (apply Hpos; left). lia.
Qed.

Lemma round_double_exact (z : Z) : (Z.abs z ≤ 2 ^ 53)%Z → round_double z = z.
Proof.
  intros Hz. unfold round_double.
  destruct (decide (Z.abs z = 2 ^ 53)%Z) as [Heq|Hne].
  - assert (z = 2 ^ 53 ∨ z = - 2 ^ 53)%Z as [-> | ->] by lia; by vm_compute.
  - assert (Z.log2 (Z.abs z) - 52 ≤ 0)%Z as He.
    { destruct (decide (Z.abs z = 0)%Z) as [->|H0]; [by vm_compute|].
      assert (Z.log2 (Z.abs z) < 53)%Z; [|lia].
      apply Z.log2_lt_pow2; lia. }
    by rewrite (proj2 (Z.leb_le _ _) He).
Qed.

Lemma in_range_exact (z : Z) : (Z.abs z ≤ 2 ^ 53)%Z → in_range z = true.
Proof.
  intros Hz. unfold in_range. apply Z.ltb_lt.
  pose proof (Z.log2_le_mono _ _ Hz) as Hle.
  rewrite Z.log2_pow2 in Hle by lia. lia.
Qed.

Lemma float_of_int_exact (z : Z) :
  (Z.abs z ≤ 2 ^ 53)%Z → float_of_int z = inr (Finite z).
Proof.
  intros Hz. unfold float_of_int.
  by rewrite (round_double_exact z Hz), (in_range_exact z Hz).
Qed.

Lemma float_add_exact (a b : Z) :
  (Z.abs (a + b) ≤ 2 ^ 53)%Z → float_add (Finite a) (Finite b) = Finite (a + b).
Proof.
  intros Hz. unfold float_add.
  by rewrite (round_double_exact _ Hz), (in_range_exact _ Hz).
Qed.

Lemma total_abs (zs : list Z) : (Z.abs (total zs) ≤ total (Z.abs <$> zs))%Z.
Proof.
  induction zs as [|z zs IH]; [done|].
  rewrite fmap_cons. unfold total in *. cbn [foldr]. lia.
Qed.

Lemma quicksum_from_exact (s : Z) (zs : list Z) :
  (Z.abs s + total (Z.abs <$> zs) ≤ 2 ^ 53)%Z →
  quicksum_from (Finite s) zs = inr (Finite (s + total zs)).
Proof.
  revert s. induction zs as [|z zs IH]; intros s Hs.
  - unfold total. cbn [quicksum_from foldr]. by rewrite Z.add_0_r.
  - rewrite fmap_cons in Hs. pose proof (total_abs zs) as Hzs.
    unfold total in Hs, Hzs |- *. cbn [foldr] in Hs |- *. cbn [quicksum_from].
    rewrite float_of_int_exact by lia. cbn [E_bind].
    rewrite float_add_exact by lia. fold (total zs).
    rewrite IH by (unfold total; lia). by rewrite Z.add_assoc.
Qed.

(** Within 2^53 the sum in doubles is the sum of the integers. *)
Lemma cost_sum_exact (fi : Z) (cs : list Z) :
  (Z.abs fi + total (Z.abs <$> cs) ≤ 2 ^ 53)%Z →
  cost_sum fi cs = inr (Finite (fi + total cs)).
Proof.
  intros Hs. pose proof (total_abs cs) as Hcs. unfold cost_sum, quicksum.
  rewrite quicksum_from_exact by (simpl; lia). cbn [E_bind]. unfold add_int.
  rewrite float_of_int_exact by lia. cbn [E_bind].
  rewrite Z.add_0_l. by rewrite float_add_exact by lia.
Qed.

(** On costs that are small enough, every pattern costs what its integers
    add up to. *)
Lemma exact_costs_sum (d : data) (i : nat) (p : pattern) :
  exact_costs d → i ∈ I d → p ∈ patterns (J d) →
  cost_sum (f d !!! i) ((λ j, c d !!! (i, j)) <$> p)
  = inr (Finite (f d !!! i + total_over (λ j, c d !!! (i, j)) p)).
Proof.
  intros Hex Hi Hp%elem_of_patterns. apply cost_sum_exact.
  rewrite <- list_fmap_compose.
  pose proof (total_over_sublist_le (λ j, Z.abs (c d !!! (i, j))) p (J d)
                ltac:(intros; lia) Hp) as Hle.
  specialize (Hex i Hi). unfold total_over in Hle, Hex.
  etrans; [|exact Hex]. apply Z.add_le_mono_l, Hle.
Qed.

Lemma exact_costs_finite (d : data) (i : nat) (p : pattern) :
  exact_costs d → i ∈ I d → p ∈ patterns (J d) →
  ∃ w, cost_sum (f d !!! i) ((λ j, c d !!! (i, j)) <$> p) = inr (Finite w).
Proof. intros Hex Hi Hp. eexists. by apply exact_costs_sum. Qed.



Lemma example_exact : exact_costs example.
Proof.
  intros i Hi. apply elem_of_seq in Hi.
  assert (i = 0 ∨ i = 1 ∨ i = 2) as Hi' by lia.
  destruct Hi' as [->|[->| ->]]; by vm_compute.
Qed.

Lemma example_ok : data_ok example.
Proof.
  split.
  - by vm_compute.
  - intros i Hi. apply elem_of_seq in Hi. simpl. lia.
  - intros i j _ Hj. apply elem_of_seq in Hj. simpl. lia.
  - intros i j Hi Hj. apply elem_of_seq in Hi, Hj.
    assert (i = 0 ∨ i = 1 ∨ i = 2) as Hi' by lia.
    assert (j = 0 ∨ j = 1 ∨ j = 2 ∨ j = 3 ∨ j = 4) as Hj' by lia.
    destruct Hi' as [->|[->| ->]], Hj' as [->|[->|[->|[->| ->]]]];
      eexists; vm_compute; reflexivity.
  - intros i p Hi Hp _. apply exact_costs_finite; [apply example_exact|done..].
Qed.




(** ** Sums and linear expressions *)

Lemma total_over_app {A : Type} (g : A → Z) (xs ys : list A) :
  total_over g (xs ++ ys) = (total_over g xs + total_over g ys)%Z.
Proof.
  induction xs as [|a xs IH]; [done|].
  change ((a :: xs) ++ ys) with (a :: (xs ++ ys)).
  rewrite !total_over_cons, IH. lia.
Qed.

Lemma total_over_fmap {A B : Type} (g : B → Z) (h : A → B) (xs : list A) :
  total_over g (h <$> xs) = total_over (λ a, g (h a)) xs.
Proof. unfold total_over. by rewrite <- list_fmap_compose. Qed.

Lemma total_over_ext {A : Type} (g h : A → Z) (xs : list A) :
  (∀ a, a ∈ xs → g a = h a) → total_over g xs = total_over h xs.
Proof.
  induction xs as [|a xs IH]; intros Hgh; [done|].
  rewrite !total_over_cons, Hgh by left. rewrite IH; [done|].
  intros a' Ha'. apply Hgh. by right.
Qed.

Lemma total_over_filter {A : Type} (g : A → Z) (t : A → bool) (xs : list A) :
  total_over g (filter (λ a, t a = true) xs) =
  total_over (λ a, if t a then g a else 0%Z) xs.
Proof.
  induction xs as [|a xs IH]; [done|].
  rewrite filter_cons, (total_over_cons (λ a, if t a then g a else 0%Z)).
  destruct (t a) eqn:Hta.
  - rewrite decide_True by done. by rewrite total_over_cons, IH.
  - rewrite decide_False by done. by rewrite IH.
Qed.

Lemma total_over_bind {A B : Type} (g : B → Z) (h : A → list B) (xs : list A) :
  total_over g (xs ≫= h) = total_over (λ a, total_over g (h a)) xs.
Proof.
  induction xs as [|a xs IH]; [done|].
  change ((a :: xs) ≫= h) with (h a ++ (xs ≫= h)).
  by rewrite total_over_app, total_over_cons, IH.
Qed.

Lemma eval_quicksum_vars (x : assignment) (vs : list nat) :
  eval x (quicksum_terms ((λ v, (1%Z, v)) <$> vs)) = total_over x vs.
Proof.
  unfold eval, quicksum_terms. cbn [terms constant].
  induction vs as [|v vs IH]; [done|].
  rewrite total_over_cons. cbn [fmap list_fmap foldr fst snd] in *. lia.
Qed.

Lemma holds_exactly_one (x : assignment) (vs : list nat) :
  holds x (exactly_one vs) ↔ total_over x vs = 1%Z.
Proof. unfold holds, exactly_one. cbn [sense lhs rhs]. by rewrite eval_quicksum_vars. Qed.

Lemma holds_fix_to_zero (x : assignment) (v : nat) :
  holds x (fix_to_zero v) ↔ x v = 0%Z.
Proof.
  unfold holds, fix_to_zero, var_expr, eval.
  cbn [sense lhs rhs terms constant foldr fst snd]. lia.
Qed.

(** The variables of the pairs [(i, p)] with [j] in [p], summed pair by
    pair, are the sum over the facilities of the sum over the patterns
    that contain [j]. *)
Lemma total_over_pairs_with (g : key → Z) (Is : list nat) (P : list pattern)
    (j : nat) :
  total_over g (pairs_with Is P j) =
  total_over (λ i, total_over (λ p, if contains p j then g (i, p) else 0%Z) P) Is.
Proof.
  unfold pairs_with, pairs.
  rewrite (total_over_filter g (λ k, contains k.2 j)), total_over_bind.
  apply total_over_ext. intros i _. by rewrite total_over_fmap.
Qed.

(** C5: an assignment that satisfies the built model gives, for every
    customer, total 1 to the variables of the facilities and patterns that
    contain the customer, and, for every facility, total 1 to the variables
    of its patterns. *)
Theorem coverage (d : data) (st : state) :
  data_ok d →
  ∃ st' mo, build d st = (st', inr tt) ∧ g_m st' = Some mo ∧
    (∀ i p, i ∈ I d → p ∈ g_P st' → is_Some (g_l st' !! (i, p))) ∧
    ∀ x, feasible mo x →
      (∀ j, j ∈ J d →
         total_over (λ i,
           total_over (λ p,
             if contains p j then x (g_l st' !!! (i, p)) else 0%Z) (g_P st'))
           (I d) = 1%Z) ∧
      (∀ i, i ∈ I d →
         total_over (λ p, x (g_l st' !!! (i, p))) (g_P st') = 1%Z).
Proof.
  intros Hok. exists (built_state d st), (built_model d).
  split; [by apply build_ok|]. split; [done|].
  cbn [built_state g_P g_l]. split.
  { intros i p Hi Hp. by apply built_l_is_Some, elem_of_pairs. }
  intros x [_ Hall]. rewrite Forall_forall in Hall. split.
  - intros j Hj.
    rewrite <- (total_over_pairs_with (λ k, x (built_l d !!! k))).
    rewrite <- (total_over_fmap x (λ k, built_l d !!! k)).
    apply holds_exactly_one, Hall.
    unfold built_model. cbn [constrs]. rewrite !elem_of_app. right. right.
    apply list_elem_of_fmap. by exists j.
  - intros i Hi.
    rewrite <- (total_over_fmap x (λ p, built_l d !!! (i, p))).
    apply holds_exactly_one, Hall.
    unfold built_model. cbn [constrs]. rewrite !elem_of_app. right. left.
    apply list_elem_of_fmap. by exists i.
Qed.

Lemma coverage_witness :
  ∃ st' mo, build example fresh = (st', inr tt) ∧ g_m st' = Some mo ∧
    ∀ x, feasible mo x →
      ∀ i, i ∈ I example →
        total_over (λ p, x (g_l st' !!! (i, p))) (g_P st') = 1%Z.
Proof.
  destruct (coverage example fresh example_ok) as (st' & mo & Hrun & Hm & _ & Hx).
  exists st', mo. refine (conj Hrun (conj Hm _)).
  intros x Hfeasible. exact (proj2 (Hx x Hfeasible)).
Defined.

(** ** The empty pattern *)

Lemma total_over_zero {A : Type} (g : A → Z) (xs : list A) :
  (∀ a, a ∈ xs → g a = 0%Z) → total_over g xs = 0%Z.
Proof.
  induction xs as [|a xs IH]; intros Hg; [done|].
  rewrite total_over_cons, Hg by left. rewrite IH; [done|].
  intros a' Ha'. apply Hg. by right.
Qed.

(** The empty pattern occurs once in the enumeration. *)
Lemma patterns_empty_once (Js : list nat) :
  total_over (λ p : pattern, if decide (p = []) then 1 else 0)%Z (patterns Js) = 1%Z.
Proof.
  rewrite patterns_groups. replace (length Js + 1) with (S (length Js)) by lia.
  induction (length Js) as [|k IH].
  - rewrite groups_S, combinations_0. done.
  - rewrite groups_S, total_over_app, IH, total_over_zero; [done|].
    intros p [_ Hlen]%elem_of_combinations.
    rewrite decide_False; [done|]. by intros ->.
Qed.

(** C8: at a facility whose capacity is not negative, the variable of the
    empty pattern is not fixed to 0, the empty pattern costs nothing, and
    choosing it alone satisfies the facility's one-pattern constraint
    together with every exclusion made for that facility. *)
Theorem empty_pattern_admissible (d : data) (st : state) (i : nat) (Ci : Z) :
  data_ok d → i ∈ I d → C d !! i = Some Ci → (0 ≤ Ci)%Z →
  ∃ st' mo v,
    build d st = (st', inr tt) ∧ g_m st' = Some mo ∧
    g_l st' !! (i, []) = Some v ∧
    (fix_to_zero v ∉ constrs mo) ∧
    g_cost st' !! (i, []) = Some (Int 0) ∧
    exactly_one ((λ p, g_l st' !!! (i, p)) <$> g_P st') ∈ constrs mo ∧
    ∃ x : assignment,
      well_typed mo x ∧ x v = 1%Z ∧
      holds x (exactly_one ((λ p, g_l st' !!! (i, p)) <$> g_P st')) ∧
      ∀ p, p ∈ g_P st' →
        fix_to_zero (g_l st' !!! (i, p)) ∈ constrs mo →
        holds x (fix_to_zero (g_l st' !!! (i, p))).
Proof.
  intros Hok Hi HCi Hpos.
  assert ((i, []) ∈ built_pairs d) as Hk.
  { apply elem_of_pairs. split; [done|apply empty_pattern]. }
  destruct (built_l_is_Some d _ Hk) as [v Hv].
  assert (exceeds d (i, []) = false) as Hfits.
  { apply not_true_is_false. rewrite (exceeds_spec d Hok i []); [|done|].
    - rewrite (list_lookup_total_correct _ _ _ HCi). cbn. lia.
    - apply empty_pattern. }
  assert (∀ p, p ∈ patterns (J d) → built_l d !!! (i, p) = v → p = []) as Hinj.
  { intros p Hp Heq. rewrite <- (lookup_total_correct _ _ _ Hv) in Heq.
    apply (built_l_inj d) in Heq; [by simplify_eq| |done].
    by apply elem_of_pairs. }
  exists (built_state d st), (built_model d), v.
  cbn [built_state g_P g_l g_cost g_m].
  split_and!; [by apply build_ok|done..| | | |].
  - rewrite (fixed_iff_exceeds d _ _ Hk Hv). by rewrite Hfits.
  - by rewrite (built_cost_lookup d _ Hk).
  - unfold built_model. cbn [constrs]. rewrite !elem_of_app. right. left.
    apply list_elem_of_fmap. by exists i.
  - exists (λ w, if decide (w = v) then 1 else 0)%Z. split_and!.
    + intros w dcl _ _. simpl. case_decide; auto.
    + by rewrite decide_True.
    + apply holds_exactly_one. rewrite total_over_fmap.
      etrans; [|apply (patterns_empty_once (J d))]. apply total_over_ext.
      intros p Hp. simpl. destruct (decide (p = [])) as [->|Hne].
      * by rewrite (lookup_total_correct _ _ _ Hv), decide_True.
      * rewrite decide_False; [done|]. intros Heq. by apply Hne, Hinj.
    + intros p Hp Hfixed. apply holds_fix_to_zero. simpl.
      rewrite decide_False; [done|]. intros Heq.
      apply Hinj in Heq as ->; [|done].
      rewrite (lookup_total_correct _ _ _ Hv) in Hfixed.
      apply (fixed_iff_exceeds d _ _ Hk Hv) in Hfixed. congruence.
Qed.

Lemma empty_pattern_admissible_witness :
  ∃ st' mo v,
    build example fresh = (st', inr tt) ∧ g_m st' = Some mo ∧
    g_l st' !! (0, []) = Some v ∧
    (fix_to_zero v ∉ constrs mo) ∧
    g_cost st' !! (0, []) = Some (Int 0).
Proof.
  assert (0 ∈ I example) as Hi by (apply elem_of_seq; lia).
  assert (C example !! 0 = Some 10%Z) as HC by reflexivity.
  destruct (empty_pattern_admissible example fresh 0 10 example_ok Hi HC)
    as (st' & mo & v & Hrun & Hm & Hv & Hfree & Hcost & _); [lia|].
  exists st', mo, v. exact (conj Hrun (conj Hm (conj Hv (conj Hfree Hcost)))).
Defined.

(** ** Determinism *)

(** C7: when the cells have once run to the end on some data, they run to
    the end on the same data from any other state, in particular from the
    state the first run left, and leave the same patterns, the same
    variables and costs, and the same model, hence the same objective
    coefficients and constraints. *)
Theorem build_deterministic (d : data) (st1 st2 st1' : state) :
  build d st1 = (st1', inr tt) →
  ∃ st2', build d st2 = (st2', inr tt) ∧
    g_P st2' = g_P st1' ∧ g_l st2' = g_l st1' ∧ g_cost st2' = g_cost st1' ∧
    ∃ mo, g_m st1' = Some mo ∧ g_m st2' = Some mo.
Proof.
  intros Hrun. assert (data_ok d) as Hok by by eapply build_inr_data_ok.
  rewrite (build_ok d Hok) in Hrun. injection Hrun as <-.
  exists (built_state d st2). split; [by apply build_ok|].
  split_and!; [done..|]. by exists (built_model d).
Qed.

Lemma build_deterministic_witness :
  ∃ st1' st2', build example fresh = (st1', inr tt) ∧
    build example st1' = (st2', inr tt) ∧ g_m st2' = g_m st1'.
Proof.
  pose proof (build_ok example example_ok fresh) as Hrun.
  destruct (build_deterministic example fresh (built_state example fresh) _ Hrun)
    as (st2' & Hrun' & _ & _ & _ & mo & Hm1 & Hm2).
  exists (built_state example fresh), st2'.
  exact (conj Hrun (conj Hrun' (eq_trans Hm2 (eq_sym Hm1)))).
Defined.

(** ** Models created and requests to optimize *)

Lemma bind_inv {A B : Type} (ma : M A) (k : A → M B) st st' r :
  bind ma k st = (st', r) →
  (∃ e, ma st = (st', inl e) ∧ r = inl e)
  ∨ (∃ s1 a, ma st = (s1, inr a) ∧ k a s1 = (st', r)).
Proof.
  unfold bind. destruct (ma st) as [s1 [e|a]].
  - intros [= <- <-]. left. by exists e.
  - intros Hk. right. by exists s1, a.
Qed.

Lemma log_stable_ret {A : Type} (a : A) : log_stable (ret a).
Proof. by intros st st' r [= <- _]. Qed.

Lemma log_stable_raise {A : Type} (e : exn) : log_stable (raise (A:=A) e).
Proof. by intros st st' r [= <- _]. Qed.

Lemma log_stable_lift {A : Type} (e : E A) : log_stable (lift e).
Proof. by intros st st' r [= <- _]. Qed.

Lemma log_stable_gets {A : Type} (g : state → A) : log_stable (gets g).
Proof. by intros st st' r [= <- _]. Qed.

Lemma log_stable_modify (g : state → state) :
  (∀ st, g_log (g st) = g_log st) → log_stable (modify g).
Proof. intros Hg st st' r [= <- _]. apply Hg. Qed.

Lemma log_stable_bind {A B : Type} (ma : M A) (k : A → M B) :
  log_stable ma → (∀ a, log_stable (k a)) → log_stable (bind ma k).
Proof.
  intros Hma Hk st st' r [(e & Hrun & _)|(s1 & a & Hrun & Hrest)]%bind_inv.
  - by eapply Hma.
  - rewrite (Hk _ _ _ _ Hrest). by eapply Hma.
Qed.

Lemma log_stable_for {A : Type} (xs : list A) (body : A → M unit) :
  (∀ x, log_stable (body x)) → log_stable (for_ xs body).
Proof.
  intros Hbody. induction xs as [|x xs IH]; [apply log_stable_ret|].
  apply log_stable_bind; [apply Hbody|by intros _].
Qed.

Lemma log_stable_the_model : log_stable the_model.
Proof.
  intros st st' r. unfold the_model. by destruct (g_m st); intros [= <- _].
Qed.

Lemma log_stable_assert (cond : bool) : log_stable (assert cond).
Proof. destruct cond; [apply log_stable_ret|apply log_stable_raise]. Qed.

Create HintDb log_stable discriminated.

#[local] Hint Resolve log_stable_ret log_stable_raise log_stable_lift
  log_stable_gets log_stable_the_model log_stable_assert : log_stable.
#[local] Hint Extern 1 (log_stable (bind _ _)) =>
  apply log_stable_bind; [|intros ?] : log_stable.
#[local] Hint Extern 1 (log_stable (for_ _ _)) =>
  apply log_stable_for; intros ? : log_stable.
#[local] Hint Extern 1 (log_stable (modify _)) =>
  apply log_stable_modify; intros []; reflexivity : log_stable.
#[local] Hint Extern 2 (log_stable (if ?t then _ else _)) =>
  destruct t : log_stable.

Lemma log_stable_data_cell (d : data) : log_stable (data_cell d).
Proof. unfold data_cell. auto 10 with log_stable. Qed.

Lemma log_stable_var_cell (d : data) : log_stable (var_cell d).
Proof. unfold var_cell, var_body, addVar. auto 20 with log_stable. Qed.

Lemma log_stable_cost_cell (d : data) : log_stable (cost_cell d).
Proof. unfold cost_cell, cost_body. auto 20 with log_stable. Qed.

Lemma log_stable_objective_cell (d : data) : log_stable (objective_cell d).
Proof. unfold objective_cell, setObjective. auto 20 with log_stable. Qed.

Lemma log_stable_capacity_cell (d : data) : log_stable (capacity_cell d).
Proof. unfold capacity_cell, capacity_body, addConstr. auto 20 with log_stable. Qed.

Lemma log_stable_facility_cell (d : data) : log_stable (facility_cell d).
Proof. unfold facility_cell, facility_body, addConstr. auto 20 with log_stable. Qed.

Lemma log_stable_customer_cell (d : data) : log_stable (customer_cell d).
Proof. unfold customer_cell, customer_body, addConstr. auto 20 with log_stable. Qed.

#[local] Hint Resolve log_stable_data_cell log_stable_var_cell
  log_stable_cost_cell log_stable_objective_cell log_stable_capacity_cell
  log_stable_facility_cell log_stable_customer_cell : log_stable.

(** The cells before the last one never ask the solver to optimize. *)
Lemma build_log (d : data) st st' r :
  build d st = (st', r) →
  ∃ evs, g_log st' = g_log st ++ evs ∧ ∀ mo, Optimize mo ∉ evs.
Proof.
  unfold build.
  intros [(e & Hrun & _)|(s1 & [] & Hdata & Hrun)]%bind_inv.
  { exists []. rewrite app_nil_r. split; [|intros mo; apply not_elem_of_nil].
    by eapply log_stable_data_cell. }
  apply log_stable_data_cell in Hdata.
  apply bind_inv in Hrun as [(e & [=] & _)|(s2 & [] & [= <-] & Hrun)].
  exists [NewModel "FacilityLocationWithPattern"]. split.
  - assert (log_stable (var_cell d;; cost_cell d;; objective_cell d;;
                        capacity_cell d;; facility_cell d;; customer_cell d))
      as Hrest by auto 20 with log_stable.
    rewrite (Hrest _ _ _ Hrun). cbn. by rewrite Hdata.
  - intros mo [=]%list_elem_of_singleton.
Qed.

Lemma notebook_inl (d : data) st st' e :
  build d st = (st', inl e) → notebook d st = (st', inl e).
Proof. apply bind_inl. Qed.

(** ** Validation *)

Lemma checks_false (d : data) :
  wrong_lengths d ∨ size (c d) ≠ length (I d) * length (J d) → checks d = false.
Proof.
  intros Hbad. apply not_true_is_false. rewrite checks_true.
  intros (HJ & HI & HC & Hc). unfold wrong_lengths in Hbad. lia.
Qed.

(** A loop raises [err] when one of its rounds raises it from any state and
    every round either completes or raises [err]. *)
Lemma for_raises {A : Type} (xs : list A) (body : A → M unit) (err : exn) x :
  x ∈ xs →
  (∀ st, ∃ st', body x st = (st', inl err)) →
  (∀ y st, y ∈ xs → ∃ st', body y st = (st', inr tt) ∨ body y st = (st', inl err)) →
  ∀ st, ∃ st', for_ xs body st = (st', inl err).
Proof.
  intros Hx Hraise. induction xs as [|y xs IH]; intros Hall st.
  { by apply elem_of_nil in Hx. }
  simpl. destruct (Hall y st ltac:(left)) as [s1 [Hy|Hy]].
  - rewrite (bind_inr _ _ _ _ _ Hy).
    apply elem_of_cons in Hx as [->|Hx].
    + destruct (Hraise st) as [s2 Hs2]. congruence.
    + apply IH; [done|]. intros z s Hz. apply Hall. by right.
  - exists s1. by apply bind_inl.
Qed.

Lemma genexp_getitem `{Countable K} {A B : Type} (m : gmap K A) (g : B → K)
    (xs : list B) :
  (∃ ys, genexp (λ x, getitem m (g x)) xs = inr ys)
  ∨ genexp (λ x, getitem m (g x)) xs = inl KeyError.
Proof.
  induction xs as [|x xs IH]; [left; by eexists|].
  simpl. unfold getitem at 1 3. destruct (m !! g x) as [a|]; [|by right].
  simpl. destruct IH as [[ys ->]| ->]; [left; by eexists|by right].
Qed.

Lemma genexp_getitem_values `{Countable K} {A B : Type} (m : gmap K A)
    (g : B → K) (xs : list B) (ys : list A) :
  genexp (λ x, getitem m (g x)) xs = inr ys →
  Forall (λ y, ∃ x, x ∈ xs ∧ m !! g x = Some y) ys.
Proof.
  revert ys. induction xs as [|x xs IH]; intros ys; simpl.
  { intros [= <-]. constructor. }
  destruct (getitem m (g x)) as [e|y] eqn:Hy; [done|]. simpl.
  destruct (genexp _ xs) as [e|ys'] eqn:Hys; [done|]. simpl.
  intros [= <-]. constructor.
  - exists x. split; [left|by apply getitem_inr].
  - eapply Forall_impl; [by apply IH|].
    intros y0 (x' & Hx' & Hy'). exists x'. split; [by right|done].
Qed.

Lemma float_of_int_representable (z : Z) :
  representable z → float_of_int z = inr (Finite (round_double z)).
Proof. unfold representable, float_of_int. by intros ->. Qed.

(** A sum of integers that have doubles is a double, which may be
    infinite. *)
Lemma cost_sum_representable (fi : Z) (cs : list Z) :
  representable fi → Forall representable cs → ∃ x, cost_sum fi cs = inr x.
Proof.
  intros Hfi Hcs. unfold cost_sum, quicksum.
  assert (∀ s, ∃ x, quicksum_from s cs = inr x) as Hsum.
  { induction Hcs as [|z zs Hz _ IH]; intros s; [by eexists|].
    cbn [quicksum_from]. rewrite (float_of_int_representable z Hz).
    apply IH. }
  destruct (Hsum (Finite 0)) as [x ->]. cbn [E_bind]. unfold add_int.
  rewrite (float_of_int_representable fi Hfi). by eexists.
Qed.

Lemma pattern_cost_cases (d : data) (i : nat) (p : pattern) :
  i < length (f d) → representable (f d !!! i) →
  (∀ j z, j ∈ p → c d !! (i, j) = Some z → representable z) →
  (∃ w, pattern_cost d i p = inr w) ∨ pattern_cost d i p = inl KeyError.
Proof.
  intros Hi Hfi Hc. unfold pattern_cost.
  destruct (length p =? 0); [left; by eexists|].
  rewrite (index_lt (f d) i Hi). simpl.
  destruct (genexp_getitem (c d) (λ j, (i, j)) p) as [[ys Hys]|Hys];
    rewrite Hys; [|by right].
  left. simpl. apply genexp_getitem_values in Hys.
  destruct (cost_sum_representable (f d !!! i) ys Hfi) as [x ->];
    [|by eexists].
  eapply Forall_impl; [exact Hys|].
  intros y (j & Hj & Hjy). by eapply Hc.
Qed.

Lemma pattern_cost_missing (d : data) (i j : nat) :
  i < length (f d) → c d !! (i, j) = None →
  pattern_cost d i [j] = inl KeyError.
Proof.
  intros Hi Hc. unfold pattern_cost. simpl.
  rewrite (index_lt (f d) i Hi). simpl. by rewrite (getitem_None _ _ Hc).
Qed.

(** With the facilities indexing their tuples and every cost having a
    double, a missing connection cost makes the cost cell raise
    [KeyError]. *)
Lemma cost_cell_missing (d : data) st :
  (∀ i, i ∈ I d → i < length (f d)) → representable_costs d →
  g_P st = patterns (J d) →
  missing_cost d → ∃ st', cost_cell d st = (st', inl KeyError).
Proof.
  intros Hidx [Hf Hc] HP (i & j & Hi & Hj & Hmiss).
  unfold cost_cell. rewrite bind_modify, bind_gets, for_nested.
  cbn [set_cost g_P]. rewrite HP.
  apply (for_raises _ _ _ (i, [j])).
  - apply elem_of_pairs. split; [done|by apply singleton_pattern].
  - intros s. exists s. unfold cost_body. simpl.
    apply bind_inl. unfold lift. by rewrite pattern_cost_missing by auto.
  - intros [i' p'] s [Hi' Hp']%elem_of_pairs. unfold cost_body. simpl.
    destruct (pattern_cost_cases d i' p' (Hidx i' Hi') (Hf i' Hi'))
      as [[z Hz]|Hz].
    + intros j' z' Hj' Hz'. apply (Hc i' j' z' Hi'); [|done].
      by apply (patterns_drawn_from _ p').
    + eexists. left. unfold bind, lift. rewrite Hz. done.
    + exists s. right. apply bind_inl. unfold lift. by rewrite Hz.
Qed.

Lemma swapped_key_missing : missing_cost swapped_key.
Proof.
  exists 1, 0. split_and!.
  - apply elem_of_seq. lia.
  - apply elem_of_seq. lia.
  - by vm_compute.
Qed.

Lemma swapped_key_representable : representable_costs swapped_key.
Proof.
  split.
  - intros i Hi%elem_of_seq.
    assert (i = 0 ∨ i = 1) as [-> | ->] by lia; by vm_compute.
  - intros i j z Hi%elem_of_seq Hj%elem_of_seq.
    assert (j = 0) as -> by lia.
    assert (i = 0 ∨ i = 1) as [-> | ->] by lia; intros Hz; vm_compute in Hz;
      [|done].
    injection Hz as <-. by vm_compute.
Qed.

(** When the assertions pass, the facilities index their tuples and every
    cost has a double, a missing connection cost lets the model and its
    variables be created and ends the run with the [KeyError] of the cost
    cell. *)
Lemma run_missing_cost (d : data) st :
  checks d = true → (∀ i, i ∈ I d → i < length (f d)) →
  representable_costs d → missing_cost d →
  ∃ s1 s3 s4,
    data_cell d st = (s1, inr tt)
    ∧ (model_cell;; var_cell d) s1 = (s3, inr tt)
    ∧ cost_cell d s3 = (s4, inl KeyError)
    ∧ notebook d st = (s4, inl KeyError).
Proof.
  intros Hchecks Hidx Hrepr Hmissing.
  pose proof (data_cell_spec d st) as Hdata. rewrite Hchecks in Hdata.
  set (s1 := set_P (patterns (J d)) st) in *.
  set (s2 := add_log (NewModel "FacilityLocationWithPattern")
               (set_m (new_Model "FacilityLocationWithPattern") s1)).
  pose proof (var_cell_spec d s2 _ eq_refl) as Hvar.
  match type of Hvar with _ = (?s, _) => set (s3 := s) in * end.
  destruct (cost_cell_missing d s3 Hidx Hrepr eq_refl Hmissing) as [s4 Hcost].
  exists s1, s3, s4. split_and!; [done| |done|].
  - unfold bind. exact Hvar.
  - apply notebook_inl. unfold build.
    rewrite (bind_inr _ _ _ _ _ Hdata).
    erewrite bind_inr; [|reflexivity].
    rewrite (bind_inr _ _ _ _ _ Hvar). by apply bind_inl.
Qed.

Lemma swapped_key_checks : checks swapped_key = true.
Proof. by vm_compute. Qed.

Lemma swapped_key_indexed (i : nat) :
  i ∈ I swapped_key → i < length (f swapped_key).
Proof. intros Hi%elem_of_seq. simpl. lia. Qed.

(** C9: a dictionary with |I|·|J| entries can lack a pair of I × J, as
    [swapped_key] shows; the three assertions then pass, the model and its
    variables are created, and the cost cell raises [KeyError], which ends
    the run. This is what happens whenever the assertions pass, the
    facilities index their tuples, the costs have doubles and a pair is
    missing. *)
Theorem size_check_misses_keys :
  (∃ d, size (c d) = length (I d) * length (J d) ∧ missing_cost d
        ∧ checks d = true ∧ (∀ i, i ∈ I d → i < length (f d))
        ∧ representable_costs d)
  ∧ ∀ d st,
      checks d = true → (∀ i, i ∈ I d → i < length (f d)) →
      representable_costs d → missing_cost d →
      ∃ s1 s3 s4,
        data_cell d st = (s1, inr tt)
        ∧ (model_cell;; var_cell d) s1 = (s3, inr tt)
        ∧ cost_cell d s3 = (s4, inl KeyError)
        ∧ notebook d st = (s4, inl KeyError).
Proof.
  split; [|apply run_missing_cost].
  exists swapped_key. split_and!.
  - by vm_compute.
  - apply swapped_key_missing.
  - apply swapped_key_checks.
  - apply swapped_key_indexed.
  - apply swapped_key_representable.
Qed.

Lemma size_check_misses_keys_witness :
  ∃ s4, notebook swapped_key fresh = (s4, inl KeyError).
Proof.
  destruct (proj2 size_check_misses_keys swapped_key fresh)
    as (s1 & s3 & s4 & _ & _ & _ & Hrun).
  - by vm_compute.
  - intros i Hi%elem_of_seq. simpl. lia.
  - exact swapped_key_representable.
  - exact swapped_key_missing.
  - exists s4. exact Hrun.
Defined.

(** C6 fails as stated: [swapped_key] misses a connection cost, and its run
    does not stop at the assertions; it ends with the [KeyError] of the cost
    cell, after the model has been constructed. *)
Lemma validation_counterexample :
  missing_cost swapped_key
  ∧ ¬ stops_at_validation swapped_key fresh
  ∧ (notebook swapped_key fresh).2 = inl KeyError
  ∧ (∃ mo, g_m (notebook swapped_key fresh).1 = Some mo ∧ length (vars mo) = 4)
  ∧ g_log (notebook swapped_key fresh).1 = [NewModel "FacilityLocationWithPattern"].
Proof.
  split_and!.
  - apply swapped_key_missing.
  - intros (st' & Hrun & _).
    destruct (run_missing_cost swapped_key fresh swapped_key_checks
                swapped_key_indexed swapped_key_representable
                swapped_key_missing)
      as (s1 & s3 & s4 & _ & _ & _ & Hrun').
    rewrite Hrun' in Hrun. discriminate Hrun.
  - vm_compute. reflexivity.
  - eexists. split; vm_compute; reflexivity.
  - vm_compute. reflexivity.
Qed.

(** C6, amended: a tuple of the wrong length, or a dictionary whose size is
    not |I|·|J|, stops the run at an assertion of the data cell, before any
    model is constructed and before any call of the solver; a missing
    connection cost makes the run raise before the solver is asked to
    optimize. *)
Theorem validation (d : data) (st : state) :
  (wrong_lengths d ∨ size (c d) ≠ length (I d) * length (J d) →
     stops_at_validation d st)
  ∧ (missing_cost d → raises_before_solver d st).
Proof.
  split.
  - intros Hbad%checks_false.
    exists (set_P (patterns (J d)) st). split; [|done].
    apply notebook_inl. unfold build. apply bind_inl.
    by rewrite data_cell_spec, Hbad.
  - intros (i & j & Hi & Hj & Hc).
    destruct (build d st) as [st' [e|[]]] eqn:Hrun.
    + destruct (build_log d _ _ _ Hrun) as (evs & Hlog & Hevs).
      exists st', e, evs. split; [by apply notebook_inl|done].
    + apply build_inr_data_ok in Hrun.
      destruct (ok_costs _ Hrun i j Hi Hj) as [z Hz]. congruence.
Qed.

Lemma validation_witness :
  stops_at_validation short_demands fresh
  ∧ raises_before_solver swapped_key fresh.
Proof.
  split.
  - apply (proj1 (validation short_demands fresh)).
    left. left. simpl. lia.
  - apply (proj2 (validation swapped_key fresh)). exact swapped_key_missing.
Defined.

(** ** Bounds on the objective *)

Lemma memb_true (v : nat) (vs : list nat) : memb v vs = true ↔ v ∈ vs.
Proof.
  unfold memb. induction vs as [|w vs IH]; simpl.
  - split; [done|by intros ?%elem_of_nil].
  - rewrite orb_true_iff, IH, Nat.eqb_eq, elem_of_cons. done.
Qed.

Lemma memb_false (v : nat) (vs : list nat) : memb v vs = false ↔ v ∉ vs.
Proof. rewrite <- memb_true. by destruct (memb v vs). Qed.

Lemma ind_elem_of (chosen : list nat) (v : nat) : v ∈ chosen → ind chosen v = 1%Z.
Proof. intros Hv%memb_true. unfold ind. by rewrite Hv. Qed.

Lemma ind_not_elem_of (chosen : list nat) (v : nat) :
  v ∉ chosen → ind chosen v = 0%Z.
Proof. intros Hv%memb_false. unfold ind. by rewrite Hv. Qed.

Lemma ind_binary (chosen : list nat) (v : nat) :
  ind chosen v = 0%Z ∨ ind chosen v = 1%Z.
Proof. unfold ind. destruct (memb v chosen); auto. Qed.

Lemma ind_ext (ch ch' : list nat) (v : nat) :
  (∀ w, w ∈ ch ↔ w ∈ ch') → ind ch v = ind ch' v.
Proof.
  intros Hsame. destruct (decide (v ∈ ch)) as [Hv|Hv].
  - rewrite !ind_elem_of; [done|by apply Hsame|done].
  - rewrite !ind_not_elem_of; [done|by rewrite <- Hsame|done].
Qed.

Lemma ind_cons_ne (ch : list nat) (v v0 : nat) :
  v ≠ v0 → ind (v0 :: ch) v = ind ch v.
Proof.
  intros Hne%Nat.eqb_neq. unfold ind, memb. simpl. by rewrite Hne.
Qed.

Lemma allb_true {A : Type} (t : A → bool) (xs : list A) :
  allb t xs = true ↔ ∀ x, x ∈ xs → t x = true.
Proof.
  induction xs as [|x xs IH]; simpl.
  - split; [by intros _ x ?%elem_of_nil|done].
  - destruct (t x) eqn:Htx.
    + rewrite IH. split.
      * intros Hall y [->|Hy]%elem_of_cons; auto.
      * intros Hall y Hy. apply Hall. by right.
    + split; [done|]. intros Hall. rewrite <- Htx. apply Hall. left.
Qed.

Lemma holdsb_true (x : assignment) (cn : Constr) :
  holdsb x cn = true ↔ holds x cn.
Proof.
  unfold holdsb, holds. destruct (sense cn).
  - apply Z.eqb_eq.
  - apply Z.leb_le.
  - apply Z.leb_le.
Qed.

Lemma eval_ext (x y : assignment) (e : LinExpr) :
  (∀ t, t ∈ terms e → x t.2 = y t.2) → eval x e = eval y e.
Proof.
  unfold eval. intros Hxy. f_equal.
  induction (terms e) as [|t ts IH]; [done|].
  simpl. rewrite Hxy by left. rewrite IH; [done|].
  intros t' Ht'. apply Hxy. by right.
Qed.

Lemma within_ext (vs : list nat) (x y : assignment) (e : LinExpr) :
  within vs e = true → (∀ v, v ∈ vs → x v = y v) → eval x e = eval y e.
Proof.
  unfold within. intros Hin Hxy. apply eval_ext. intros t Ht. apply Hxy.
  apply memb_true. rewrite forallb_forall in Hin. by apply Hin, list_elem_of_In.
Qed.

Lemma is_fix_to_zero_Some (cn : Constr) (v : nat) :
  is_fix_to_zero cn = Some v → cn = fix_to_zero v.
Proof.
  unfold is_fix_to_zero, fix_to_zero, var_expr. intros Hcn.
  repeat case_match; by simplify_eq.
Qed.

Lemma fixed_vars_spec (mo : Model) (v : nat) :
  v ∈ fixed_vars mo → fix_to_zero v ∈ constrs mo.
Proof.
  intros (cn & Hcn & Hv)%list_elem_of_omap.
  by rewrite <- (is_fix_to_zero_Some cn v Hv).
Qed.

Lemma total_over_zero_inv (x : assignment) (vs : list nat) :
  (∀ v, v ∈ vs → x v = 0%Z ∨ x v = 1%Z) → total_over x vs = 0%Z →
  ∀ v, v ∈ vs → x v = 0%Z.
Proof.
  induction vs as [|w vs IH]; intros Hbin Hsum v Hv.
  { by apply elem_of_nil in Hv. }
  rewrite total_over_cons in Hsum.
  assert (0 ≤ total_over x vs)%Z as Hnonneg.
  { clear -Hbin. induction vs as [|u vs IH]; [done|].
    rewrite total_over_cons.
    assert (0 ≤ total_over x vs)%Z.
    { apply IH. intros v [->|Hv]%elem_of_cons; apply Hbin.
      - left.
      - right. by right. }
    destruct (Hbin u) as [->| ->]; [right; left|lia..]. }
  destruct (Hbin w ltac:(left)) as [Hw|Hw]; [|lia].
  apply elem_of_cons in Hv as [->|Hv]; [done|].
  apply IH; [|lia|done]. intros u Hu. apply Hbin. by right.
Qed.

(** Binary variables that add up to 1: one is 1, the others are 0. *)
Lemma one_hot (x : assignment) (vs : list nat) :
  NoDup vs → (∀ v, v ∈ vs → x v = 0%Z ∨ x v = 1%Z) → total_over x vs = 1%Z →
  ∃ v0, v0 ∈ vs ∧ x v0 = 1%Z ∧ ∀ v, v ∈ vs → v ≠ v0 → x v = 0%Z.
Proof.
  induction 1 as [|w vs Hw Hnodup IH]; intros Hbin Hsum; [done|].
  rewrite total_over_cons in Hsum.
  assert (∀ v, v ∈ vs → x v = 0%Z ∨ x v = 1%Z) as Hbin'.
  { intros v Hv. apply Hbin. by right. }
  destruct (Hbin w ltac:(left)) as [Hxw|Hxw].
  - destruct IH as (v0 & Hv0 & Hx0 & Hrest); [done|lia|].
    exists v0. split_and!; [by right|done|].
    intros v [->|Hv]%elem_of_cons Hne; [done|by apply Hrest].
  - exists w. split_and!; [left|done|].
    intros v [->|Hv]%elem_of_cons Hne; [done|].
    apply (total_over_zero_inv x vs); [done|lia|done].
Qed.

(** Disjoint blocks of binary variables, each adding up to 1: the
    assignment is the indicator of one variable per block. *)
Lemma choose (x : assignment) (blocks : list (list nat)) :
  NoDup (concat blocks) →
  (∀ v, v ∈ concat blocks → x v = 0%Z ∨ x v = 1%Z) →
  Forall (λ blk, total_over x blk = 1%Z) blocks →
  ∃ ch, Forall2 (λ v blk, v ∈ blk) ch blocks
        ∧ Forall (λ v, x v = 1%Z) ch
        ∧ ∀ v, v ∈ concat blocks → x v = ind ch v.
Proof.
  induction blocks as [|blk blocks IH]; intros Hnodup Hbin Hsums.
  { exists []. split_and!; [constructor..|]. by intros v ?%elem_of_nil. }
  simpl in Hnodup, Hbin. apply NoDup_app in Hnodup as (Hblk & Hdisj & Hrest).
  apply Forall_cons in Hsums as [Hsum Hsums].
  destruct IH as (ch & Hch & Hones & Hagree); [done| |done|].
  { intros v Hv. apply Hbin, elem_of_app. by right. }
  destruct (one_hot x blk) as (v0 & Hv0 & Hx0 & Hothers); [done| |done|].
  { intros v Hv. apply Hbin, elem_of_app. by left. }
  assert (∀ v, v ∈ ch → v ∈ concat blocks) as Hin.
  { clear -Hch. induction Hch as [|w blk' ch blocks Hw _ IH]; intros v Hv.
    - by apply elem_of_nil in Hv.
    - simpl. apply elem_of_app. apply elem_of_cons in Hv as [->|Hv]; auto. }
  exists (v0 :: ch). split_and!; [by constructor..|].
  intros v [Hv|Hv]%elem_of_app.
  - destruct (decide (v = v0)) as [->|Hne].
    + rewrite ind_elem_of; [done|left].
    + rewrite ind_not_elem_of; [by apply Hothers|].
      rewrite not_elem_of_cons. split; [done|].
      intros Hv'%Hin. by eapply Hdisj.
  - rewrite (Hagree v Hv). symmetry. apply ind_cons_ne.
    intros ->. by eapply Hdisj.
Qed.

Lemma search_sound (fixed : list nat) (leaf : list nat → bool)
    (blocks : list (list nat)) (chosen ch : list nat) :
  search fixed leaf blocks chosen = true →
  Forall2 (λ v blk, v ∈ blk) ch blocks →
  Forall (λ v, v ∉ fixed) ch →
  leaf (reverse ch ++ chosen) = true.
Proof.
  intros Hsearch Hch. revert chosen Hsearch.
  induction Hch as [|v blk ch blocks Hv _ IH]; intros chosen Hsearch Hfree.
  { done. }
  apply Forall_cons in Hfree as [Hv' Hfree]. simpl in Hsearch.
  rewrite allb_true in Hsearch. specialize (Hsearch v Hv).
  apply memb_false in Hv'. rewrite Hv' in Hsearch.
  rewrite reverse_cons, <- app_assoc. by apply IH.
Qed.

Lemma certificate_sound (mo : Model) (blocks : list (list nat)) (n : nat)
    (bound : Z) (x : assignment) :
  certificate mo blocks n bound = true → feasible mo x →
  (bound ≤ value mo x)%Z.
Proof.
  unfold certificate. rewrite !andb_true_iff.
  intros [[[[[Hnodup%bool_decide_eq_true Hblocks%bool_decide_eq_true] Hbin]
    Hobj] Hcs] Hsearch] [Htyped Hall].
  rewrite forallb_forall in Hbin. rewrite forallb_forall in Hcs.
  rewrite Forall_forall in Hblocks. rewrite Forall_forall in Hall.
  destruct (choose x blocks) as (ch & Hch & Hones & Hagree); [done| |..].
  { intros v Hv%list_elem_of_In%Hbin. unfold is_binary_var in Hv.
    destruct (vars mo !! v) as [dcl|] eqn:Hdcl; [|done].
    apply bool_decide_eq_true in Hv. by eapply Htyped. }
  { apply Forall_forall. intros blk Hblk. by apply holds_exactly_one, Hall, Hblocks. }
  assert (∀ v, v ∈ concat blocks → x v = ind (reverse ch ++ []) v) as Hagree'.
  { intros v Hv. rewrite (Hagree v Hv). apply ind_ext. intros w.
    by rewrite app_nil_r, elem_of_reverse. }
  eapply search_sound in Hsearch; [|done|]; last first.
  { rewrite Forall_forall in Hones |- *. intros v Hv Hfixed%fixed_vars_spec.
    apply Hall, holds_fix_to_zero in Hfixed. specialize (Hones v Hv).
    simpl in Hones. lia. }
  unfold leaf_bound in Hsearch.
  assert (allb (holdsb (ind (reverse ch ++ []))) (drop n (constrs mo)) = true) as Hleaf.
  { apply allb_true. intros cn Hcn. apply holdsb_true.
    assert (holds x cn) as Hx.
    { apply Hall. eapply elem_of_sublist; [done|apply sublist_drop]. }
    revert Hx. unfold holds.
    by rewrite (within_ext _ _ _ _ (Hcs cn ltac:(by apply list_elem_of_In)) Hagree'). }
  rewrite Hleaf in Hsearch. apply Z.leb_le in Hsearch.
  unfold value in *. by rewrite (within_ext _ _ _ _ Hobj Hagree').
Qed.

Lemma ind_feasible (mo : Model) (chosen : list nat) :
  allb (holdsb (ind chosen)) (constrs mo) = true → feasible mo (ind chosen).
Proof.
  intros Hall. split.
  - intros v dcl _ _. apply ind_binary.
  - apply Forall_forall. intros cn Hcn. apply holdsb_true.
    by apply (proj1 (allb_true _ _) Hall).
Qed.

(** ** The instance of the notebook *)

Lemma example_model_eq : built_model example = example_model.
Proof. vm_compute. reflexivity. Qed.

(** C1: on the instance of the notebook the cells build a model whose
    binary assignments satisfying all constraints have objective value at
    least 42, and one of them has value 42. *)
Theorem example_optimum :
  ∃ st' mo, build example fresh = (st', inr tt) ∧ g_m st' = Some mo ∧
    (∃ x, feasible mo x ∧ value mo x = 42%Z) ∧
    (∀ x, feasible mo x → (42 ≤ value mo x)%Z).
Proof.
  exists (built_state example fresh), (built_model example).
  split; [apply build_ok, example_ok|]. split; [done|].
  rewrite example_model_eq. split.
  - exists (ind [3; 44; 72]). split.
    + apply ind_feasible. vm_compute. reflexivity.
    + vm_compute. reflexivity.
  - intros x. apply (certificate_sound example_model example_blocks 71).
    vm_compute. reflexivity.
Qed.

(** * Further properties of the cells *)

(** ** The whole run *)

Lemma notebook_ok (d : data) st :
  data_ok d →
  notebook d st =
    (add_log (Optimize (built_model d)) (built_state d st), inr tt).
Proof.
  intros Hok. unfold notebook.
  by rewrite (bind_inr _ _ _ _ _ (build_ok d Hok st)).
Qed.

(** X1: the notebook runs to the end exactly on the data that is in order, and
    then one model has been created and the solver has been asked to
    optimize once, at the end, the model that [m] holds. *)
Theorem notebook_runs (d : data) (st : state) :
  data_ok d ↔
  ∃ st' mo, notebook d st = (st', inr tt) ∧ g_m st' = Some mo ∧
    g_log st' =
      g_log st ++ [NewModel "FacilityLocationWithPattern"; Optimize mo].
Proof.
  split.
  - intros Hok. eexists _, (built_model d).
    split; [by apply notebook_ok|]. split; [done|].
    cbn. by rewrite <- app_assoc.
  - intros (st' & mo & Hrun & _). unfold notebook in Hrun.
    apply bind_inr_inv in Hrun as (s1 & [] & Hbuild & _).
    by eapply build_inr_data_ok.
Qed.

(** ** The variables *)

Lemma length_pairs (Is : list nat) (P : list pattern) :
  length (pairs Is P) = length Is * length P.
Proof.
  unfold pairs. induction Is as [|i Is IH]; [done|].
  change ((i :: Is) ≫= λ i, (λ p, (i, p)) <$> P)
    with (((λ p, (i, p)) <$> P) ++ (Is ≫= λ i, (λ p, (i, p)) <$> P)).
  rewrite length_app, length_fmap, IH. simpl. lia.
Qed.

Lemma length_patterns (Js : list nat) : length (patterns Js) = 2 ^ length Js.
Proof. apply length_groups_all. Qed.

(** X2: the variable cell declares one binary variable per facility and
    pattern, |I|·2^|J| in all; [l[i, p]] is the column that carries the name
    of the pair, so that different pairs have different variables, and [l]
    has no other key. *)
Theorem variables_declared (d : data) (st : state) :
  data_ok d →
  ∃ st' mo, build d st = (st', inr tt) ∧ g_m st' = Some mo ∧
    length (vars mo) = length (I d) * 2 ^ length (J d) ∧
    (∀ i p, i ∈ I d → p ∈ g_P st' →
       ∃ v, g_l st' !! (i, p) = Some v ∧
            vars mo !! v = Some (mkVarDecl BINARY (i, p))) ∧
    (∀ k v, g_l st' !! k = Some v →
       k.1 ∈ I d ∧ k.2 ∈ g_P st' ∧ vars mo !! v = Some (mkVarDecl BINARY k)) ∧
    (∀ k k' v, g_l st' !! k = Some v → g_l st' !! k' = Some v → k = k').
Proof.
  intros Hok. exists (built_state d st), (built_model d).
  split; [by apply build_ok|]. split; [done|].
  cbn [built_state g_P g_l built_model vars].
  assert (∀ k v, built_l d !! k = Some v →
            (decl <$> built_pairs d) !! v = Some (decl k)) as Hname.
  { intros k v Hv%built_l_lookup. by rewrite list_lookup_fmap, Hv. }
  split_and!.
  - rewrite length_fmap. unfold built_pairs.
    by rewrite length_pairs, length_patterns.
  - intros i p Hi Hp.
    destruct (built_l_is_Some d (i, p)) as [v Hv]; [by apply elem_of_pairs|].
    exists v. split; [done|]. by apply Hname.
  - intros [i p] v Hv. pose proof (built_l_lookup d _ _ Hv) as Hk.
    apply list_elem_of_lookup_2, elem_of_pairs in Hk as [Hi Hp].
    split_and!; [done..|]. by apply Hname.
  - intros k k' v Hk%built_l_lookup Hk'%built_l_lookup. congruence.
Qed.

Lemma variables_declared_witness :
  ∃ st' mo, build example fresh = (st', inr tt) ∧ g_m st' = Some mo ∧
    length (vars mo) = 96.
Proof.
  destruct (variables_declared example fresh example_ok)
    as (st' & mo & Hrun & Hm & Hlen & _).
  exists st', mo. exact (conj Hrun (conj Hm Hlen)).
Defined.

(** ** Sums of indicators *)

Lemma total_over_single `{EqDecision A} (h : A → Z) (xs : list A) (a0 : A) :
  NoDup xs → a0 ∈ xs →
  total_over (λ a, if decide (a = a0) then h a else 0%Z) xs = h a0.
Proof.
  induction 1 as [|a xs Ha Hnodup IH]; intros Ha0.
  { by apply elem_of_nil in Ha0. }
  rewrite total_over_cons. destruct (decide (a = a0)) as [->|Hne].
  - rewrite total_over_zero; [lia|]. intros a' Ha'.
    rewrite decide_False; [done|]. by intros ->.
  - apply elem_of_cons in Ha0 as [->|Ha0]; [done|]. by rewrite IH.
Qed.

Lemma total_over_swap {A B : Type} (F : A → B → Z) (xs : list A) (ys : list B) :
  total_over (λ a, total_over (λ y, F a y) ys) xs =
  total_over (λ y, total_over (λ a, F a y) xs) ys.
Proof.
  induction xs as [|a xs IH].
  - cbn. symmetry. by apply total_over_zero.
  - rewrite total_over_cons, IH. clear IH.
    induction ys as [|y ys IH]; [done|].
    rewrite !total_over_cons, <- IH. lia.
Qed.

Lemma total_over_le {A : Type} (g h : A → Z) (xs : list A) :
  (∀ a, a ∈ xs → (g a ≤ h a)%Z) → (total_over g xs ≤ total_over h xs)%Z.
Proof.
  induction xs as [|a xs IH]; intros Hgh; [done|].
  rewrite !total_over_cons.
  assert (g a ≤ h a)%Z by (apply Hgh; left).
  assert (total_over g xs ≤ total_over h xs)%Z.
  { apply IH. intros a' Ha'. apply Hgh. by right. }
  lia.
Qed.

Lemma total_over_binary_nonneg {A : Type} (g : A → Z) (xs : list A) :
  (∀ a, a ∈ xs → g a = 0%Z ∨ g a = 1%Z) → (0 ≤ total_over g xs)%Z.
Proof.
  intros Hbin. etrans; [|apply (total_over_le (λ _, 0%Z))].
  - by rewrite total_over_zero.
  - intros a Ha. destruct (Hbin a Ha) as [->| ->]; lia.
Qed.

(** Among binary values that add up to 1, one is 1 and the others are 0. *)
Lemma one_hot_over {A : Type} (g : A → Z) (xs : list A) :
  NoDup xs → (∀ a, a ∈ xs → g a = 0%Z ∨ g a = 1%Z) → total_over g xs = 1%Z →
  ∃ a0, a0 ∈ xs ∧ g a0 = 1%Z ∧ ∀ a, a ∈ xs → a ≠ a0 → g a = 0%Z.
Proof.
  induction 1 as [|a xs Ha Hnodup IH]; intros Hbin Hsum; [done|].
  rewrite total_over_cons in Hsum.
  assert (∀ a', a' ∈ xs → g a' = 0%Z ∨ g a' = 1%Z) as Hbin'.
  { intros a' Ha'. apply Hbin. by right. }
  pose proof (total_over_binary_nonneg g xs Hbin') as Hnonneg.
  destruct (Hbin a ltac:(left)) as [Hga|Hga].
  - destruct IH as (a0 & Ha0 & Hg0 & Hrest); [done|lia|].
    exists a0. split_and!; [by right|done|].
    intros a' [->|Ha']%elem_of_cons Hne; [done|by apply Hrest].
  - exists a. split_and!; [left|done|].
    intros a' [->|Ha']%elem_of_cons Hne; [done|].
    assert (total_over g xs = 0%Z) as Hzero by lia.
    clear -Hbin' Hzero Ha'. induction xs as [|y ys IH].
    { by apply elem_of_nil in Ha'. }
    rewrite total_over_cons in Hzero.
    assert (0 ≤ total_over g ys)%Z as Hys.
    { apply total_over_binary_nonneg. intros z Hz. apply Hbin'. by right. }
    destruct (Hbin' y ltac:(left)) as [Hy|Hy]; [|lia].
    apply elem_of_cons in Ha' as [->|Ha']; [done|].
    apply IH; [|done|lia]. intros z Hz. apply Hbin'. by right.
Qed.

(** A choice for every element of a list, gathered into a function. *)
Lemma choice_list {B : Type} `{Inhabited B} (Q : nat → B → Prop) (Is : list nat) :
  (∀ i, i ∈ Is → ∃ y, Q i y) → ∃ g : nat → B, ∀ i, i ∈ Is → Q i (g i).
Proof.
  induction Is as [|i Is IH]; intros Hall.
  { exists (λ _, inhabitant). by intros i ?%elem_of_nil. }
  destruct IH as [g Hg]. { intros i' Hi'. apply Hall. by right. }
  destruct (Hall i ltac:(left)) as [y Hy].
  exists (λ i', if decide (i' = i) then y else g i'). intros i' Hi'.
  destruct (decide (i' = i)) as [->|Hne]; [done|].
  apply elem_of_cons in Hi' as [->|Hi']; [done|by apply Hg].
Qed.

(** The sum over a pattern is the sum over the customers, restricted to
    the pattern. *)
Lemma total_over_sublist (h : nat → Z) (p Js : list nat) :
  NoDup Js → p `sublist_of` Js →
  total_over h p = total_over (λ j, if contains p j then h j else 0%Z) Js.
Proof.
  intros Hnodup Hsub. revert Hnodup.
  induction Hsub as [|j p Js Hsub IH|j p Js Hsub IH]; intros Hnodup.
  - done.
  - apply NoDup_cons in Hnodup as [Hj Hnodup].
    rewrite !total_over_cons, IH by done. unfold contains.
    rewrite bool_decide_eq_true_2 by left. f_equal.
    apply total_over_ext. intros j' Hj'.
    destruct (decide (j' ∈ p)) as [Hin|Hout].
    + rewrite !bool_decide_eq_true_2; [done|by right|done].
    + rewrite !bool_decide_eq_false_2; [done| |done].
      rewrite not_elem_of_cons. split; [|done]. by intros ->.
  - apply NoDup_cons in Hnodup as [Hj Hnodup].
    rewrite total_over_cons, IH by done. unfold contains.
    rewrite bool_decide_eq_false_2; [done|].
    intros Hin. apply Hj. by eapply elem_of_sublist.
Qed.

Lemma eval_quicksum_terms (x : assignment) (ts : list (Z * nat)) :
  eval x (quicksum_terms ts) = total_over (λ t, t.1 * x t.2)%Z ts.
Proof.
  unfold eval, quicksum_terms. cbn [terms constant].
  induction ts as [|t ts IH]; [done|].
  rewrite total_over_cons. cbn [foldr] in *. lia.
Qed.

(** ** Feasible assignments and plans *)

Section plans.
Context (d : data) (Hok : data_ok d).
Context (HI : NoDup (I d)) (HJ : NoDup (J d)).

Lemma NoDup_patterns : NoDup (patterns (J d)).
Proof using HJ. by apply NoDup_groups. Qed.

Lemma built_l_total_Some (k : key) :
  k ∈ built_pairs d → built_l d !! k = Some (built_l d !!! k).
Proof using Type. intros Hk. by apply lookup_lookup_total, built_l_is_Some. Qed.

Lemma var_binary (x : assignment) (k : key) :
  well_typed (built_model d) x → k ∈ built_pairs d →
  x (built_l d !!! k) = 0%Z ∨ x (built_l d !!! k) = 1%Z.
Proof using Type.
  intros Htyped Hk. apply (Htyped _ (decl k)); [|done].
  cbn [built_model vars]. by rewrite list_lookup_fmap, (built_l_total d k Hk).
Qed.

Lemma cost_of_empty (i : nat) : coeff_of (cost_of d (i, [])) = 0%Z.
Proof using Type. by vm_compute. Qed.

Lemma cost_of_service (i : nat) (p : pattern) :
  exact_costs d → i ∈ I d → p ∈ patterns (J d) →
  coeff_of (cost_of d (i, p)) = service_cost d i p.
Proof using Hok.
  intros Hex Hi Hp. unfold service_cost.
  destruct (decide (p = [])) as [->|Hne]; [apply cost_of_empty|].
  unfold cost_of. simpl.
  by rewrite (pattern_cost_sum d Hok i p Hi Hp Hne),
    (exact_costs_sum d i p Hex Hi Hp).
Qed.

Lemma plan_value_stored (chosen : nat → pattern) :
  (∀ i, i ∈ I d → chosen i ∈ patterns (J d)) →
  plan_value d chosen
  = total_over (λ i, coeff_of (built_cost d !!! (i, chosen i))) (I d).
Proof using Type.
  intros Hchosen. apply total_over_ext. intros i Hi.
  assert ((i, chosen i) ∈ built_pairs d) as Hk.
  { apply elem_of_pairs. split; [done|by apply Hchosen]. }
  by rewrite (lookup_total_correct _ _ _ (built_cost_lookup d _ Hk)).
Qed.

(** On costs that are small enough, a plan costs in the model what its
    integers add up to. *)
Lemma plan_value_exact (chosen : nat → pattern) :
  exact_costs d → (∀ i, i ∈ I d → chosen i ∈ patterns (J d)) →
  plan_value d chosen = plan_cost d chosen.
Proof using Hok.
  intros Hex Hchosen. apply total_over_ext. intros i Hi.
  by apply cost_of_service; [|done|apply Hchosen].
Qed.

Lemma built_constrs_elem_of (cn : Constr) :
  cn ∈ constrs (built_model d) ↔
  (∃ k, k ∈ built_pairs d ∧ exceeds d k = true
        ∧ cn = fix_to_zero (built_l d !!! k))
  ∨ (∃ i, i ∈ I d
          ∧ cn = exactly_one ((λ p, built_l d !!! (i, p)) <$> patterns (J d)))
  ∨ (∃ j, j ∈ J d
          ∧ cn = exactly_one ((λ k, built_l d !!! k)
                                <$> pairs_with (I d) (patterns (J d)) j)).
Proof using Type.
  unfold built_model. cbn [constrs].
  rewrite !elem_of_app. unfold capacity_constrs, facility_constrs,
    customer_constrs. rewrite list_elem_of_bind, !list_elem_of_fmap.
  split.
  - intros [(k & Hcn & Hk)|[(i & -> & Hi)|(j & -> & Hj)]].
    + left. exists k. destruct (exceeds d k); [|by apply elem_of_nil in Hcn].
      by apply list_elem_of_singleton in Hcn.
    + right. left. by exists i.
    + right. right. by exists j.
  - intros [(k & Hk & Hex & ->)|[(i & Hi & ->)|(j & Hj & ->)]].
    + left. exists k. rewrite Hex. split; [by apply list_elem_of_singleton|done].
    + right. left. by exists i.
    + right. right. by exists j.
Qed.

Lemma facility_sum (x : assignment) (i : nat) :
  feasible (built_model d) x → i ∈ I d →
  total_over (λ p, x (built_l d !!! (i, p))) (patterns (J d)) = 1%Z.
Proof using Type.
  intros [_ Hall] Hi. rewrite Forall_forall in Hall.
  rewrite <- (total_over_fmap x (λ p, built_l d !!! (i, p))).
  apply holds_exactly_one, Hall, built_constrs_elem_of. right. left. by exists i.
Qed.

Lemma customer_sum (x : assignment) (j : nat) :
  feasible (built_model d) x → j ∈ J d →
  total_over (λ i,
    total_over (λ p, if contains p j then x (built_l d !!! (i, p)) else 0%Z)
      (patterns (J d))) (I d) = 1%Z.
Proof using Type.
  intros [_ Hall] Hj. rewrite Forall_forall in Hall.
  rewrite <- (total_over_pairs_with (λ k, x (built_l d !!! k))).
  rewrite <- (total_over_fmap x (λ k, built_l d !!! k)).
  apply holds_exactly_one, Hall, built_constrs_elem_of. right. right. by exists j.
Qed.

(** *** What follows from [selects] *)

Section selects.
Context (x : assignment) (chosen : nat → pattern).
Context (Hchosen : ∀ i, i ∈ I d → chosen i ∈ patterns (J d)).
Context (Hsel : selects d (built_l d) x chosen).

Lemma selects_facility (i : nat) :
  i ∈ I d →
  total_over (λ p, x (built_l d !!! (i, p))) (patterns (J d)) = 1%Z.
Proof using HJ Hchosen Hsel.
  intros Hi.
  rewrite (total_over_ext _ (λ p, if decide (p = chosen i) then 1%Z else 0%Z)).
  - by apply (total_over_single (λ _, 1%Z)); [apply NoDup_patterns|apply Hchosen].
  - intros p Hp. by apply Hsel.
Qed.

Lemma selects_customer_at (i j : nat) :
  i ∈ I d →
  total_over (λ p, if contains p j then x (built_l d !!! (i, p)) else 0%Z)
    (patterns (J d)) = if contains (chosen i) j then 1%Z else 0%Z.
Proof using HJ Hchosen Hsel.
  intros Hi.
  rewrite (total_over_ext _
    (λ p, if decide (p = chosen i)
          then (if contains p j then 1%Z else 0%Z) else 0%Z)).
  - by apply (total_over_single (λ p, if contains p j then 1%Z else 0%Z));
      [apply NoDup_patterns|apply Hchosen].
  - intros p Hp. rewrite (Hsel i p Hi Hp).
    by destruct (contains p j), (decide (p = chosen i)).
Qed.

Lemma selects_customer (j : nat) :
  total_over (λ i,
    total_over (λ p, if contains p j then x (built_l d !!! (i, p)) else 0%Z)
      (patterns (J d))) (I d) =
  total_over (λ i, if contains (chosen i) j then 1%Z else 0%Z) (I d).
Proof using HJ Hchosen Hsel.
  apply total_over_ext. intros i Hi. by apply selects_customer_at.
Qed.

Lemma selects_value : value (built_model d) x = plan_value d chosen.
Proof using HJ Hchosen Hsel.
  unfold value, built_model, built_objective. cbn [objective].
  rewrite eval_quicksum_terms, total_over_fmap. cbn [fst snd].
  unfold built_pairs, pairs. rewrite total_over_bind.
  unfold plan_value. apply total_over_ext. intros i Hi.
  rewrite total_over_fmap.
  rewrite (total_over_ext _
    (λ p, if decide (p = chosen i) then coeff_of (cost_of d (i, p)) else 0%Z)).
  - by apply (total_over_single (λ p, coeff_of (cost_of d (i, p))));
      [apply NoDup_patterns|apply Hchosen].
  - intros p Hp. rewrite (Hsel i p Hi Hp).
    assert ((i, p) ∈ built_pairs d) as Hk by by apply elem_of_pairs.
    rewrite (lookup_total_correct _ _ _ (built_cost_lookup d _ Hk)).
    destruct (decide (p = chosen i)); lia.
Qed.

End selects.

(** *** From a feasible assignment to a plan *)

Lemma feasible_selects (x : assignment) :
  feasible (built_model d) x →
  ∃ chosen, (∀ i, i ∈ I d → chosen i ∈ patterns (J d))
            ∧ selects d (built_l d) x chosen.
Proof using HJ.
  intros Hfeasible.
  destruct (choice_list
    (λ i p, p ∈ patterns (J d) ∧ ∀ p', p' ∈ patterns (J d) →
       x (built_l d !!! (i, p')) = if decide (p' = p) then 1%Z else 0%Z) (I d))
    as [chosen Hchosen].
  - intros i Hi.
    destruct (one_hot_over (λ p, x (built_l d !!! (i, p))) (patterns (J d)))
      as (p & Hp & Hone & Hzero).
    + apply NoDup_patterns.
    + intros p Hp. apply var_binary; [apply Hfeasible|by apply elem_of_pairs].
    + by apply facility_sum.
    + exists p. split; [done|]. intros p' Hp'.
      destruct (decide (p' = p)) as [->|Hne]; [done|by apply Hzero].
  - exists chosen. split.
    + intros i Hi. by apply Hchosen.
    + intros i p Hi Hp. by apply Hchosen.
Qed.

Lemma selected_fits (x : assignment) (chosen : nat → pattern) (i : nat) :
  feasible (built_model d) x →
  (∀ i, i ∈ I d → chosen i ∈ patterns (J d)) →
  selects d (built_l d) x chosen → i ∈ I d →
  (total_over (λ j, b d !!! j) (chosen i) ≤ C d !!! i)%Z.
Proof using Hok.
  intros [_ Hall] Hchosen Hsel Hi. rewrite Forall_forall in Hall.
  assert ((i, chosen i) ∈ built_pairs d) as Hk.
  { apply elem_of_pairs. split; [done|by apply Hchosen]. }
  destruct (exceeds d (i, chosen i)) eqn:Hex.
  - assert (holds x (fix_to_zero (built_l d !!! (i, chosen i)))) as Hfix.
    { apply Hall, built_constrs_elem_of. left. by exists (i, chosen i). }
    apply holds_fix_to_zero in Hfix.
    rewrite (Hsel i (chosen i) Hi (Hchosen i Hi)), decide_True in Hfix; done.
  - apply not_true_iff_false in Hex.
    rewrite (exceeds_spec d Hok i (chosen i) Hi (Hchosen i Hi)) in Hex.
    unfold total_over. lia.
Qed.

Lemma selected_once (x : assignment) (chosen : nat → pattern) (j : nat) :
  feasible (built_model d) x →
  (∀ i, i ∈ I d → chosen i ∈ patterns (J d)) →
  selects d (built_l d) x chosen → j ∈ J d →
  ∃ i, i ∈ I d ∧ j ∈ chosen i ∧ ∀ i', i' ∈ I d → j ∈ chosen i' → i' = i.
Proof using HI HJ.
  intros Hfeasible Hchosen Hsel Hj.
  pose proof (customer_sum x j Hfeasible Hj) as Hsum.
  rewrite (selects_customer x chosen Hchosen Hsel j) in Hsum.
  destruct (one_hot_over (λ i, if contains (chosen i) j then 1%Z else 0%Z)
              (I d) HI) as (i & Hi & Hone & Hzero); [|done|].
  { intros i _. simpl. destruct (contains (chosen i) j); auto. }
  exists i. split; [done|]. unfold contains in *. split.
  - destruct (decide (j ∈ chosen i)) as [Hin|Hout]; [done|].
    by rewrite bool_decide_eq_false_2 in Hone.
  - intros i' Hi' Hin. destruct (decide (i' = i)) as [->|Hne]; [done|].
    specialize (Hzero i' Hi' Hne). simpl in Hzero.
    by rewrite bool_decide_eq_true_2 in Hzero.
Qed.

Lemma feasible_plan (x : assignment) :
  feasible (built_model d) x →
  ∃ chosen, serves d chosen ∧ selects d (built_l d) x chosen
            ∧ value (built_model d) x = plan_value d chosen.
Proof using Hok HI HJ.
  intros Hfeasible.
  destruct (feasible_selects x Hfeasible) as (chosen & Hchosen & Hsel).
  exists chosen. split_and!; [|done|by apply selects_value].
  split; [done|..].
  - intros i Hi. by eapply selected_fits.
  - intros j Hj. by eapply selected_once.
Qed.

(** *** From a plan to a feasible assignment *)

Lemma plan_selects (chosen : nat → pattern) :
  (∀ i, i ∈ I d → chosen i ∈ patterns (J d)) →
  selects d (built_l d) (plan_assignment d (built_l d) chosen) chosen.
Proof using Type.
  intros Hchosen i p Hi Hp. unfold plan_assignment.
  destruct (decide (p = chosen i)) as [->|Hne].
  - apply ind_elem_of, list_elem_of_fmap. by exists i.
  - apply ind_not_elem_of. intros (i' & Heq & Hi')%list_elem_of_fmap.
    apply built_l_inj in Heq; [by simplify_eq|by apply elem_of_pairs|].
    apply elem_of_pairs. split; [done|by apply Hchosen].
Qed.

Lemma plan_feasible (chosen : nat → pattern) :
  serves d chosen →
  feasible (built_model d) (plan_assignment d (built_l d) chosen).
Proof using Hok HI HJ.
  intros [Hchosen Hfits Honce].
  pose proof (plan_selects chosen Hchosen) as Hsel.
  set (x := plan_assignment d (built_l d) chosen) in *.
  split; [intros v dcl _ _; apply ind_binary|].
  apply Forall_forall. intros cn.
  intros [([i p] & Hk & Hex & ->)|[(i & Hi & ->)|(j & Hj & ->)]]%built_constrs_elem_of.
  - apply elem_of_pairs in Hk as [Hi Hp]. apply holds_fix_to_zero.
    rewrite (Hsel i p Hi Hp). rewrite decide_False; [done|]. intros ->.
    apply (exceeds_spec d Hok i (chosen i) Hi Hp) in Hex.
    specialize (Hfits i Hi). unfold total_over in Hfits. lia.
  - apply holds_exactly_one. rewrite total_over_fmap.
    by apply (selects_facility x chosen).
  - apply holds_exactly_one.
    rewrite (total_over_fmap x (λ k, built_l d !!! k)).
    rewrite (total_over_pairs_with (λ k, x (built_l d !!! k))).
    rewrite (selects_customer x chosen Hchosen Hsel j).
    destruct (Honce j Hj) as (i & Hi & Hin & Hunique).
    rewrite (total_over_ext _ (λ i', if decide (i' = i) then 1%Z else 0%Z)).
    + by apply (total_over_single (λ _, 1%Z)).
    + intros i' Hi'. unfold contains. destruct (decide (i' = i)) as [->|Hne].
      * by rewrite bool_decide_eq_true_2.
      * rewrite bool_decide_eq_false_2; [done|]. intros Hin'. by apply Hne, Hunique.
Qed.

(** *** Capacity *)

(** A plan serves every customer once, so the capacities together cover
    the demands together. *)
Lemma plan_needs_capacity (chosen : nat → pattern) :
  serves d chosen →
  (total_over (λ j, b d !!! j) (J d) ≤ total_over (λ i, C d !!! i) (I d))%Z.
Proof using HI HJ.
  intros [Hchosen Hfits Honce].
  trans (total_over (λ i, total_over (λ j, b d !!! j) (chosen i)) (I d));
    [|by apply total_over_le].
  rewrite (total_over_ext (λ i, total_over (λ j, b d !!! j) (chosen i))
    (λ i, total_over (λ j, if contains (chosen i) j then b d !!! j else 0%Z)
            (J d))); last first.
  { intros i Hi. apply total_over_sublist; [done|].
    by apply elem_of_patterns, Hchosen. }
  rewrite total_over_swap. apply Z.eq_le_incl, total_over_ext. intros j Hj.
  destruct (Honce j Hj) as (i & Hi & Hin & Hunique).
  rewrite (total_over_ext _ (λ i', if decide (i' = i) then b d !!! j else 0%Z)).
  - symmetry. by apply (total_over_single (λ _, b d !!! j)).
  - intros i' Hi'. unfold contains. destruct (decide (i' = i)) as [->|Hne].
    + by rewrite bool_decide_eq_true_2.
    + rewrite bool_decide_eq_false_2; [done|]. intros Hin'. by apply Hne, Hunique.
Qed.

End plans.

(** X3: with facilities and customers listed without repetition, an assignment
    that satisfies the built model is a plan: at every facility it gives 1
    to the variable of one pattern and 0 to the others, the chosen pattern
    fits the capacity, and every customer is in the chosen pattern of
    exactly one facility. The objective value is what [cost] holds for the
    chosen patterns, added up; on costs within 2^53 that is the cost of the
    plan in integers. *)
Theorem feasible_is_plan (d : data) (st : state) :
  data_ok d → NoDup (I d) → NoDup (J d) →
  ∃ st' mo, build d st = (st', inr tt) ∧ g_m st' = Some mo ∧
    ∀ x, feasible mo x →
      ∃ chosen, serves d chosen ∧ selects d (g_l st') x chosen
        ∧ value mo x
          = total_over (λ i, coeff_of (g_cost st' !!! (i, chosen i))) (I d)
        ∧ (exact_costs d → value mo x = plan_cost d chosen).
Proof.
  intros Hok HI HJ. exists (built_state d st), (built_model d).
  split; [by apply build_ok|]. split; [done|].
  intros x Hx. cbn [built_state g_l g_cost].
  destruct (feasible_plan d Hok HI HJ x Hx) as (chosen & Hserves & Hsel & Hval).
  pose proof (serves_pattern _ _ Hserves) as Hchosen.
  exists chosen. split_and!; [done..| |].
  - by rewrite Hval, plan_value_stored.
  - intros Hex. by rewrite Hval, (plan_value_exact d Hok).
Qed.

Lemma feasible_is_plan_witness :
  ∃ st' mo, build example fresh = (st', inr tt) ∧ g_m st' = Some mo ∧
    ∀ x, feasible mo x → ∃ chosen, serves example chosen
                                   ∧ value mo x = plan_cost example chosen.
Proof.
  destruct (feasible_is_plan example fresh example_ok
              (NoDup_seq 0 3) (NoDup_seq 0 5)) as (st' & mo & Hrun & Hm & Hx).
  exists st', mo. refine (conj Hrun (conj Hm _)). intros x Hfeasible.
  destruct (Hx x Hfeasible) as (chosen & Hserves & _ & _ & Hvalue).
  exists chosen. exact (conj Hserves (Hvalue example_exact)).
Defined.

(** X4: conversely every plan is an assignment that satisfies the built model:
    the indicator of the variables of the chosen patterns is feasible. Its
    objective value is what [cost] holds for the chosen patterns, added up;
    on costs within 2^53 that is the cost of the plan in integers. *)
Theorem plan_is_feasible (d : data) (st : state) :
  data_ok d → NoDup (I d) → NoDup (J d) →
  ∃ st' mo, build d st = (st', inr tt) ∧ g_m st' = Some mo ∧
    ∀ chosen, serves d chosen →
      feasible mo (plan_assignment d (g_l st') chosen)
      ∧ selects d (g_l st') (plan_assignment d (g_l st') chosen) chosen
      ∧ value mo (plan_assignment d (g_l st') chosen)
        = total_over (λ i, coeff_of (g_cost st' !!! (i, chosen i))) (I d)
      ∧ (exact_costs d →
         value mo (plan_assignment d (g_l st') chosen) = plan_cost d chosen).
Proof.
  intros Hok HI HJ. exists (built_state d st), (built_model d).
  split; [by apply build_ok|]. split; [done|].
  intros chosen Hserves. cbn [built_state g_l g_cost].
  pose proof (serves_pattern _ _ Hserves) as Hchosen.
  pose proof (plan_selects d chosen Hchosen) as Hsel.
  pose proof (selects_value d HJ _ chosen Hchosen Hsel) as Hval.
  split_and!; [by apply plan_feasible|done| |].
  - by rewrite Hval, plan_value_stored.
  - intros Hex. by rewrite Hval, (plan_value_exact d Hok).
Qed.

Lemma plan_is_feasible_witness :
  ∃ st' mo, build example fresh = (st', inr tt) ∧ g_m st' = Some mo ∧
    ∀ chosen, serves example chosen →
      feasible mo (plan_assignment example (g_l st') chosen)
      ∧ value mo (plan_assignment example (g_l st') chosen)
        = plan_cost example chosen.
Proof.
  destruct (plan_is_feasible example fresh example_ok
              (NoDup_seq 0 3) (NoDup_seq 0 5)) as (st' & mo & Hrun & Hm & Hplan).
  exists st', mo. refine (conj Hrun (conj Hm _)). intros chosen Hserves.
  destruct (Hplan chosen Hserves) as (Hfeasible & _ & _ & Hvalue).
  exact (conj Hfeasible (Hvalue example_exact)).
Defined.

(** X5: the notebook does not compare the demands with the capacities: when
    the demands add up to more than the capacities, it still builds the
    model and asks the solver to optimize it, and no assignment satisfies
    that model. *)
Theorem overload_infeasible (d : data) (st : state) :
  data_ok d → NoDup (I d) → NoDup (J d) →
  (total_over (λ i, C d !!! i) (I d) < total_over (λ j, b d !!! j) (J d))%Z →
  ∃ st' mo, notebook d st = (st', inr tt) ∧ g_m st' = Some mo ∧
    Optimize mo ∈ g_log st' ∧ ∀ x, ¬ feasible mo x.
Proof.
  intros Hok HI HJ Hover. eexists _, (built_model d).
  split; [by apply notebook_ok|]. split; [done|]. split.
  - cbn. rewrite !elem_of_app. right. by apply list_elem_of_singleton.
  - intros x (chosen & Hserves & _)%(feasible_plan d Hok HI HJ).
    apply (plan_needs_capacity d HI HJ) in Hserves. lia.
Qed.

Lemma overloaded_ok : data_ok overloaded.
Proof.
  split.
  - by vm_compute.
  - intros i Hi%elem_of_seq. simpl. lia.
  - intros i j _ Hj%elem_of_seq. simpl. lia.
  - intros i j Hi%elem_of_seq Hj%elem_of_seq.
    assert (i = 0) as -> by lia. assert (j = 0) as -> by lia.
    eexists. vm_compute. reflexivity.
  - intros i p Hi Hp _. apply exact_costs_finite; [|done..].
    intros i' Hi'%elem_of_seq. assert (i' = 0) as -> by lia. by vm_compute.
Qed.

Lemma overload_infeasible_witness :
  ∃ st' mo, notebook overloaded fresh = (st', inr tt) ∧ g_m st' = Some mo ∧
    Optimize mo ∈ g_log st' ∧ ∀ x, ¬ feasible mo x.
Proof.
  apply (overload_infeasible overloaded fresh overloaded_ok
           (NoDup_seq 0 1) (NoDup_seq 0 1)).
  vm_compute. reflexivity.
Defined.

(** ** Running constraint cells again *)

Lemma feasible_add_constrs (mo : Model) (cs : list Constr) (x : assignment) :
  (∀ cn, cn ∈ cs → cn ∈ constrs mo) →
  feasible (add_constrs mo cs) x ↔ feasible mo x.
Proof.
  intros Hsub. unfold feasible, well_typed, add_constrs. cbn [vars constrs].
  rewrite Forall_app. split; [tauto|]. intros [Htyped Hall].
  split_and!; [done..|]. rewrite Forall_forall in Hall |- *.
  intros cn Hcn. by apply Hall, Hsub.
Qed.

(** X6: the constraint cells add to the model that [m] holds, whatever it
    holds already: running the facility cell and the customer cell a second
    time appends their |I| + |J| constraints once more, leaves variables and
    objective alone, and does not change which assignments are feasible. *)
Theorem rerun_constraints (d : data) (st : state) :
  data_ok d →
  ∃ s1 mo1 s2 mo2,
    build d st = (s1, inr tt) ∧ g_m s1 = Some mo1 ∧
    (facility_cell d;; customer_cell d) s1 = (s2, inr tt) ∧ g_m s2 = Some mo2 ∧
    vars mo2 = vars mo1 ∧ objective mo2 = objective mo1 ∧
    (∃ cs, constrs mo2 = constrs mo1 ++ cs
           ∧ length cs = length (I d) + length (J d)
           ∧ ∀ cn, cn ∈ cs → cn ∈ constrs mo1) ∧
    ∀ x, feasible mo2 x ↔ feasible mo1 x.
Proof.
  intros Hok.
  set (fac := facility_constrs d (built_l d) (patterns (J d))).
  set (cust := customer_constrs d (built_l d) (patterns (J d))).
  assert (∀ cn, cn ∈ fac ++ cust → cn ∈ constrs (built_model d)) as Hsub.
  { intros cn Hcn. unfold built_model. cbn [constrs].
    rewrite elem_of_app. by right. }
  exists (built_state d st), (built_model d).
  exists (set_m (add_constrs (built_model d) (fac ++ cust)) (built_state d st)),
         (add_constrs (built_model d) (fac ++ cust)).
  split_and!; [by apply build_ok|done| |done|done|done| |].
  - erewrite bind_inr; last first.
    { eapply (facility_cell_spec d); [done..|]. exact (built_l_is_Some d). }
    erewrite (customer_cell_spec d); [|done..|exact (built_l_is_Some d)].
    norm_state. by rewrite <- app_assoc.
  - exists (fac ++ cust). split_and!; [done| |done].
    unfold fac, cust, facility_constrs, customer_constrs.
    by rewrite length_app, !length_fmap.
  - intros x. by apply feasible_add_constrs.
Qed.

Lemma rerun_constraints_witness :
  ∃ s1 mo1 s2 mo2,
    build example fresh = (s1, inr tt) ∧ g_m s1 = Some mo1 ∧
    (facility_cell example;; customer_cell example) s1 = (s2, inr tt) ∧
    g_m s2 = Some mo2 ∧
    ∃ cs, constrs mo2 = constrs mo1 ++ cs ∧ length cs = 8.
Proof.
  destruct (rerun_constraints example fresh example_ok)
    as (s1 & mo1 & s2 & mo2 & Hrun & Hm1 & Hrerun & Hm2 & _ & _ & Hcs & _).
  destruct Hcs as (cs & Hcs & Hlen & _).
  exists s1, mo1, s2, mo2.
  exact (conj Hrun (conj Hm1 (conj Hrerun (conj Hm2
           (ex_intro _ cs (conj Hcs Hlen)))))).
Defined.

(** ** A cell run without the model *)

Lemma patterns_nonempty (Js : list nat) : patterns Js ≠ [].
Proof. intros Hnil. pose proof (empty_pattern Js) as Hin. rewrite Hnil in Hin.
  by apply elem_of_nil in Hin. Qed.

(** X7: when the model cell is skipped, the variable cell empties [l] and
    stops at its first [m.addVar] with a [NameError]; with no facility it
    has nothing to do and completes. *)
Theorem model_cell_needed (d : data) (st : state) :
  checks d = true → g_m st = None →
  (I d ≠ [] →
     (data_cell d;; var_cell d) st =
       (set_l ∅ (set_P (patterns (J d)) st), inl NameError))
  ∧ (I d = [] →
     (data_cell d;; var_cell d) st =
       (set_l ∅ (set_P (patterns (J d)) st), inr tt)).
Proof.
  intros Hchecks Hm.
  pose proof (data_cell_spec d st) as Hdata. rewrite Hchecks in Hdata.
  rewrite (bind_inr _ _ _ _ _ Hdata). unfold var_cell.
  rewrite bind_modify, bind_gets. cbn [set_l set_P g_P].
  split.
  - intros HI. destruct (I d) as [|i Is]; [done|].
    destruct (patterns (J d)) as [|p P] eqn:HP; [by apply patterns_nonempty in HP|].
    cbn [for_]. apply bind_inl, bind_inl.
    unfold var_body, addVar. apply bind_inl, bind_inl.
    unfold the_model. cbn. by rewrite Hm.
  - intros ->. done.
Qed.

Lemma model_cell_needed_witness :
  (data_cell example;; var_cell example) fresh =
    (set_l ∅ (set_P (patterns (J example)) fresh), inl NameError).
Proof.
  apply (model_cell_needed example fresh); [by vm_compute|done|done].
Defined.

(** ** The three ways a run can end *)

Lemma vars_stable_ret {A : Type} (a : A) : vars_stable (ret a).
Proof. by intros st st' r [= <- _]. Qed.

Lemma vars_stable_lift {A : Type} (e : E A) : vars_stable (lift e).
Proof. by intros st st' r [= <- _]. Qed.

Lemma vars_stable_gets {A : Type} (g : state → A) : vars_stable (gets g).
Proof. by intros st st' r [= <- _]. Qed.

Lemma vars_stable_the_model : vars_stable the_model.
Proof.
  intros st st' r Hrun. assert (st' = st) as ->; [|done].
  revert Hrun. unfold the_model. by destruct (g_m st); intros [= <- _].
Qed.

Lemma vars_stable_modify (g : state → state) :
  (∀ st, g_l (g st) = g_l st ∧ vars <$> g_m (g st) = vars <$> g_m st) →
  vars_stable (modify g).
Proof. intros Hg st st' r [= <- _]. apply Hg. Qed.

Lemma vars_stable_bind {A B : Type} (ma : M A) (k : A → M B) :
  vars_stable ma → (∀ a, vars_stable (k a)) → vars_stable (bind ma k).
Proof.
  intros Hma Hk st st' r [(e & Hrun & _)|(s1 & a & Hrun & Hrest)]%bind_inv.
  - by eapply Hma.
  - destruct (Hma _ _ _ Hrun) as [Hl Hm], (Hk _ _ _ _ Hrest) as [Hl' Hm'].
    split; congruence.
Qed.

Lemma vars_stable_for {A : Type} (xs : list A) (body : A → M unit) :
  (∀ x, vars_stable (body x)) → vars_stable (for_ xs body).
Proof.
  intros Hbody. induction xs as [|x xs IH]; [apply vars_stable_ret|].
  apply vars_stable_bind; [apply Hbody|by intros _].
Qed.

Lemma vars_stable_addConstr (cn : Constr) : vars_stable (addConstr cn).
Proof.
  intros st st' r. unfold addConstr, bind, the_model, modify.
  destruct (g_m st) as [mo|] eqn:Hm; intros [= <- _]; [done|].
  by rewrite Hm.
Qed.

Lemma vars_stable_setObjective (e : LinExpr) (sn : ObjSense) :
  vars_stable (setObjective e sn).
Proof.
  intros st st' r. unfold setObjective, bind, the_model, modify.
  destruct (g_m st) as [mo|] eqn:Hm; intros [= <- _]; [done|].
  by rewrite Hm.
Qed.

Create HintDb vars_stable discriminated.

#[local] Hint Resolve vars_stable_ret vars_stable_lift vars_stable_gets
  vars_stable_the_model vars_stable_addConstr vars_stable_setObjective
  : vars_stable.
#[local] Hint Extern 1 (vars_stable (bind _ _)) =>
  apply vars_stable_bind; [|intros ?] : vars_stable.
#[local] Hint Extern 1 (vars_stable (for_ _ _)) =>
  apply vars_stable_for; intros ? : vars_stable.
#[local] Hint Extern 1 (vars_stable (modify _)) =>
  apply vars_stable_modify; intros []; split; reflexivity : vars_stable.
#[local] Hint Extern 2 (vars_stable (if ?t then _ else _)) =>
  destruct t : vars_stable.

(** The cells after the variable cell declare no variable. *)
Lemma vars_stable_rest (d : data) :
  vars_stable (cost_cell d;; objective_cell d;; capacity_cell d;;
               facility_cell d;; customer_cell d).
Proof.
  unfold cost_cell, cost_body, objective_cell, capacity_cell, capacity_body,
    facility_cell, facility_body, customer_cell, customer_body.
  auto 30 with vars_stable.
Qed.

(** When the assertions pass and a later statement raises, the model and
    all its variables have been created, and nothing else was asked of the
    solver. *)
Lemma build_raises (d : data) st st' e :
  checks d = true → build d st = (st', inl e) →
  ∃ mo, g_m st' = Some mo ∧ vars mo = decl <$> built_pairs d
        ∧ g_l st' = built_l d
        ∧ g_log st' = g_log st ++ [NewModel "FacilityLocationWithPattern"].
Proof.
  intros Hchecks. unfold build.
  erewrite bind_inr; [|by rewrite data_cell_spec, Hchecks].
  erewrite bind_inr; [|done]. norm_state.
  erewrite bind_inr; [|by eapply var_cell_spec]. norm_state.
  intros Hrun.
  destruct (vars_stable_rest d _ _ _ Hrun) as [Hl Hm].
  assert (log_stable (cost_cell d;; objective_cell d;; capacity_cell d;;
                      facility_cell d;; customer_cell d))
    as Hlog by auto 20 with log_stable.
  apply Hlog in Hrun. norm_state_in Hl. norm_state_in Hm. norm_state_in Hrun.
  destruct (g_m st') as [mo|]; [|done]. injection Hm as Hm.
  by exists mo.
Qed.

(** X8: a run ends in one of three ways: an assertion of the data cell fails,
    and nothing but [P] has been assigned; the assertions pass and the data
    is not in order, and a later statement raises, after the model and all
    its variables have been created and without the solver having been
    asked to optimize; or the data is in order and the run completes. *)
Theorem outcomes (d : data) (st : state) :
  (checks d = false
   ∧ notebook d st = (set_P (patterns (J d)) st, inl AssertionError))
  ∨ (checks d = true ∧ ¬ data_ok d
     ∧ ∃ st' e mo, notebook d st = (st', inl e) ∧ g_m st' = Some mo
         ∧ vars mo = decl <$> built_pairs d ∧ g_l st' = built_l d
         ∧ g_log st' = g_log st ++ [NewModel "FacilityLocationWithPattern"])
  ∨ (data_ok d ∧ ∃ st', notebook d st = (st', inr tt)).
Proof.
  destruct (checks d) eqn:Hchecks; last first.
  { left. split; [done|]. apply notebook_inl. unfold build. apply bind_inl.
    by rewrite data_cell_spec, Hchecks. }
  right. destruct (build d st) as [st' [e|[]]] eqn:Hbuild.
  - left. split; [done|]. split.
    + intros Hok. rewrite (build_ok d Hok) in Hbuild. discriminate Hbuild.
    + destruct (build_raises d st st' e Hchecks Hbuild)
        as (mo & Hm & Hvars & Hl & Hlog).
      exists st', e, mo. split; [by apply notebook_inl|done].
  - right. apply build_inr_data_ok in Hbuild as Hok. split; [done|].
    eexists. by apply notebook_ok.
Qed.

(** ** The order of the patterns *)

Lemma combinations_all {A : Type} (pool : list A) :
  combinations pool (length pool) = [pool].
Proof.
  induction pool as [|x xs IH]; [done|].
  simpl. rewrite IH. by rewrite combinations_gt by lia.
Qed.

Lemma patterns_last (Js : list nat) : last (patterns Js) = Some Js.
Proof.
  rewrite patterns_groups. replace (length Js + 1) with (S (length Js)) by lia.
  by rewrite groups_S, combinations_all, last_snoc.
Qed.

Lemma StronglySorted_weaken {A : Type} (R R' : relation A) (l : list A) :
  (∀ x y, x ∈ l → y ∈ l → R x y → R' x y) →
  StronglySorted R l → StronglySorted R' l.
Proof.
  intros Himpl Hsorted. induction Hsorted as [|x l Hl IH Hall]; constructor.
  - apply IH. intros y z Hy Hz. apply Himpl; by right.
  - rewrite Forall_forall in Hall |- *. intros y Hy.
    apply Himpl; [left|by right|by apply Hall].
Qed.

Lemma combinations_lex (Js : list nat) (r : nat) :
  StronglySorted lt Js → StronglySorted lex_lt (combinations Js r).
Proof.
  intros Hsorted. revert r.
  induction Hsorted as [|x xs Hxs IH Hall]; intros [|r]; simpl.
  - repeat constructor.
  - constructor.
  - repeat constructor.
  - apply StronglySorted_app_2.
    + intros p q (p' & -> & _)%list_elem_of_fmap [Hsub Hlen]%elem_of_combinations.
      destruct q as [|y q]; [done|]. apply lex_lt_head.
      rewrite Forall_forall in Hall. apply Hall.
      eapply elem_of_sublist; [|done]. left.
    + apply (StronglySorted_fmap _ lex_lt lex_lt); [|apply IH].
      intros p q Hpq. by apply lex_lt_tail.
    + apply IH.
Qed.

Lemma groups_shortlex (Js : list nat) (k : nat) :
  StronglySorted lt Js → StronglySorted shortlex (groups Js k).
Proof.
  intros Hsorted. induction k as [|k IH]; [constructor|].
  rewrite groups_S. apply StronglySorted_app_2; [|done|].
  - intros p q [_ Hlt]%elem_of_groups [_ Heq]%elem_of_combinations.
    left. lia.
  - apply (StronglySorted_weaken lex_lt); [|by apply combinations_lex].
    intros p q [_ Hp]%elem_of_combinations [_ Hq]%elem_of_combinations Hpq.
    right. split; [congruence|done].
Qed.

(** X9: with the customers [J = range(n)], the patterns come in the order of
    their sizes and, within one size, in the order of tuples; the last
    pattern is [J] itself. *)
Theorem patterns_shortlex (n : nat) :
  StronglySorted shortlex (patterns (builtins.range n))
  ∧ last (patterns (builtins.range n)) = Some (builtins.range n).
Proof.
  split; [|apply patterns_last].
  rewrite patterns_groups. apply groups_shortlex, range_sorted.
Qed.

(** ** The size of the model *)

Lemma groups_cons_perm {A : Type} (x : A) (pool : list A) (k : nat) :
  groups (x :: pool) (S k) ≡ₚ ((x ::.) <$> groups pool k) ++ groups pool (S k).
Proof.
  induction k as [|k IH].
  - unfold groups. simpl. by rewrite combinations_0.
  - rewrite (groups_S (x :: pool) (S k)), IH.
    rewrite (groups_S pool (S k)), (groups_S pool k), fmap_app. simpl.
    rewrite <- !(assoc_L (++)). f_equiv.
    rewrite !(assoc_L (++)). f_equiv.
    rewrite <- (assoc_L (++) (cons x <$> combinations pool k)).
    apply Permutation_app_comm.
Qed.

(** The subsets of [x :: xs] are the subsets of [xs], with and without [x]. *)
Lemma patterns_cons_perm (x : nat) (xs : list nat) :
  patterns (x :: xs) ≡ₚ ((x ::.) <$> patterns xs) ++ patterns xs.
Proof.
  rewrite !patterns_groups.
  replace (length (x :: xs) + 1) with (S (length xs + 1)) by (simpl; lia).
  rewrite groups_cons_perm, groups_S, combinations_gt by lia.
  by rewrite app_nil_r.
Qed.

Lemma count_if_cons {A : Type} (t : A → bool) (a : A) (xs : list A) :
  count_if t (a :: xs) = (if t a then 1 else 0) + count_if t xs.
Proof.
  unfold count_if. rewrite filter_cons. destruct (t a) eqn:Hta.
  - by rewrite decide_True.
  - by rewrite decide_False.
Qed.

Lemma count_if_app {A : Type} (t : A → bool) (xs ys : list A) :
  count_if t (xs ++ ys) = count_if t xs + count_if t ys.
Proof. unfold count_if. by rewrite filter_app, length_app. Qed.

Lemma count_if_fmap {A B : Type} (t : B → bool) (h : A → B) (xs : list A) :
  count_if t (h <$> xs) = count_if (λ a, t (h a)) xs.
Proof.
  induction xs as [|a xs IH]; [done|].
  rewrite fmap_cons, !count_if_cons, IH. done.
Qed.

Lemma count_if_ext {A : Type} (t t' : A → bool) (xs : list A) :
  (∀ a, a ∈ xs → t a = t' a) → count_if t xs = count_if t' xs.
Proof.
  induction xs as [|a xs IH]; intros Htt; [done|].
  rewrite !count_if_cons, Htt by left. rewrite IH; [done|].
  intros a' Ha'. apply Htt. by right.
Qed.

Lemma count_if_all {A : Type} (t : A → bool) (xs : list A) :
  (∀ a, a ∈ xs → t a = true) → count_if t xs = length xs.
Proof.
  induction xs as [|a xs IH]; intros Ht; [done|].
  rewrite count_if_cons, Ht by left. rewrite IH; [done|].
  intros a' Ha'. apply Ht. by right.
Qed.

Lemma count_if_none {A : Type} (t : A → bool) (xs : list A) :
  (∀ a, a ∈ xs → t a = false) → count_if t xs = 0.
Proof.
  induction xs as [|a xs IH]; intros Ht; [done|].
  rewrite count_if_cons, Ht by left. rewrite IH; [done|].
  intros a' Ha'. apply Ht. by right.
Qed.

Lemma contains_cons_ne (x j : nat) (p : pattern) :
  j ≠ x → contains (x :: p) j = contains p j.
Proof.
  intros Hne. unfold contains. apply bool_decide_ext.
  rewrite elem_of_cons. split; [by intros [?|?]|by right].
Qed.

(** Every customer is in half of the patterns. *)
Lemma count_containing (Js : list nat) (j : nat) :
  NoDup Js → j ∈ Js →
  count_if (λ p, contains p j) (patterns Js) = 2 ^ (length Js - 1).
Proof.
  induction 1 as [|x xs Hx Hnodup IH]; intros Hj.
  { by apply elem_of_nil in Hj. }
  unfold count_if. rewrite patterns_cons_perm. fold (count_if (λ p, contains p j)
    (((x ::.) <$> patterns xs) ++ patterns xs)).
  rewrite count_if_app, count_if_fmap.
  replace (length (x :: xs) - 1) with (length xs) by (simpl; lia).
  destruct (decide (j = x)) as [->|Hne].
  - rewrite count_if_all, count_if_none, length_patterns; [lia| |].
    + intros p Hp. unfold contains. apply bool_decide_eq_false_2.
      intros Hin. apply Hx. by eapply patterns_drawn_from.
    + intros p _. unfold contains. apply bool_decide_eq_true_2. left.
  - apply elem_of_cons in Hj as [->|Hj]; [done|].
    rewrite (count_if_ext _ (λ p, contains p j)); last first.
    { intros p _. by apply contains_cons_ne. }
    rewrite IH by done. destruct xs as [|y ys]; [by apply elem_of_nil in Hj|].
    replace (length (y :: ys) - 1) with (length ys) by (simpl; lia).
    change (length (y :: ys)) with (S (length ys)). rewrite Nat.pow_succ_r'. lia.
Qed.

Lemma length_pairs_with (Is : list nat) (P : list pattern) (j : nat) :
  length (pairs_with Is P j) = length Is * count_if (λ p, contains p j) P.
Proof.
  unfold pairs_with. fold (count_if (λ k : nat * list nat, contains k.2 j) (pairs Is P)).
  unfold pairs. induction Is as [|i Is IH]; [done|].
  change ((i :: Is) ≫= λ i, (λ p, (i, p)) <$> P)
    with (((λ p, (i, p)) <$> P) ++ (Is ≫= λ i, (λ p, (i, p)) <$> P)).
  rewrite count_if_app, count_if_fmap, IH. simpl. lia.
Qed.

Lemma length_bind_le {A B : Type} (g : A → list B) (xs : list A) :
  (∀ a, length (g a) ≤ 1) → length (xs ≫= g) ≤ length xs.
Proof.
  intros Hg. induction xs as [|a xs IH]; [done|].
  change ((a :: xs) ≫= g) with (g a ++ (xs ≫= g)).
  rewrite length_app. specialize (Hg a). simpl. lia.
Qed.

(** X10: the model has |I|·2^|J| columns, each with a coefficient in the
    objective. Its rows are, in this order: at most one row [v == 0] per
    column; one row per facility, over the 2^|J| variables of the facility;
    one row per customer, over the |I|·2^(|J|-1) variables of the patterns
    that contain the customer. *)
Theorem model_size (d : data) (st : state) :
  data_ok d → NoDup (J d) →
  ∃ st' mo, build d st = (st', inr tt) ∧ g_m st' = Some mo ∧
    length (vars mo) = length (I d) * 2 ^ length (J d) ∧
    length (terms (objective mo)) = length (I d) * 2 ^ length (J d) ∧
    ∃ cap fac cust,
      constrs mo = cap ++ fac ++ cust ∧
      length cap ≤ length (I d) * 2 ^ length (J d) ∧
      (∀ cn, cn ∈ cap → length (terms (lhs cn)) = 1 ∧ rhs cn = 0%Z) ∧
      length fac = length (I d) ∧
      (∀ cn, cn ∈ fac →
         length (terms (lhs cn)) = 2 ^ length (J d) ∧ rhs cn = 1%Z) ∧
      length cust = length (J d) ∧
      (∀ cn, cn ∈ cust →
         length (terms (lhs cn)) = length (I d) * 2 ^ (length (J d) - 1)
         ∧ rhs cn = 1%Z).
Proof.
  intros Hok HJ. exists (built_state d st), (built_model d).
  split; [by apply build_ok|]. split; [done|].
  assert (length (built_pairs d) = length (I d) * 2 ^ length (J d)) as Hpairs.
  { unfold built_pairs. by rewrite length_pairs, length_patterns. }
  cbn [built_model vars objective constrs built_objective quicksum_terms terms].
  split_and!; [by rewrite length_fmap..|].
  eexists _, _, _. split; [done|]. split_and!.
  - rewrite <- Hpairs. apply length_bind_le. intros k.
    destruct (exceeds d k); simpl; lia.
  - intros cn (k & Hcn & _)%list_elem_of_bind.
    destruct (exceeds d k); [|by apply elem_of_nil in Hcn].
    by apply list_elem_of_singleton in Hcn as ->.
  - unfold facility_constrs. by rewrite length_fmap.
  - intros cn (i & -> & _)%list_elem_of_fmap. cbn.
    by rewrite !length_fmap, length_patterns.
  - unfold customer_constrs. by rewrite length_fmap.
  - intros cn (j & -> & Hj)%list_elem_of_fmap. cbn.
    by rewrite !length_fmap, length_pairs_with, count_containing.
Qed.

Lemma model_size_witness :
  ∃ st' mo, build example fresh = (st', inr tt) ∧ g_m st' = Some mo ∧
    length (vars mo) = 96 ∧
    ∃ cap fac cust, constrs mo = cap ++ fac ++ cust ∧
      length fac = 3 ∧ length cust = 5 ∧
      ∀ cn, cn ∈ cust → length (terms (lhs cn)) = 48.
Proof.
  destruct (model_size example fresh example_ok (NoDup_seq 0 5))
    as (st' & mo & Hrun & Hm & Hvars & _ & cap & fac & cust & Hcs & _ & _
        & Hfac & _ & Hcust & Hterms).
  exists st', mo. refine (conj Hrun (conj Hm (conj Hvars _))).
  exists cap, fac, cust. refine (conj Hcs (conj Hfac (conj Hcust _))).
  intros cn Hcn. exact (proj1 (Hterms cn Hcn)).
Defined.

(** ** Instances without facilities or without customers *)

(** X11: without a facility but with a customer, the cells run to the end and
    the solver is asked to optimize a model without variables, in which the row of
    each customer reads 0 = 1: no assignment satisfies it. *)
Theorem no_facilities (d : data) (st : state) :
  data_ok d → I d = [] → J d ≠ [] →
  ∃ st' mo, notebook d st = (st', inr tt) ∧ g_m st' = Some mo ∧
    vars mo = [] ∧ exactly_one [] ∈ constrs mo ∧ ∀ x, ¬ feasible mo x.
Proof.
  intros Hok HI HJ. eexists _, (built_model d).
  split; [by apply notebook_ok|]. split; [done|].
  assert (exactly_one [] ∈ constrs (built_model d)) as Hin.
  { destruct (J d) as [|j Js] eqn:HJs; [done|].
    apply built_constrs_elem_of. right. right. exists j.
    rewrite HI, HJs. split; [left|done]. }
  split_and!; [|done|].
  - cbn [built_model vars]. unfold built_pairs. by rewrite HI.
  - intros x [_ Hall]. rewrite Forall_forall in Hall.
    by apply Hall, holds_exactly_one in Hin.
Qed.

(** X12: without a customer the only pattern is the empty one: an assignment
    satisfies the model exactly when no capacity is negative and it gives 1
    to the variable of every facility, and then its value is 0. *)
Theorem no_customers (d : data) (st : state) :
  data_ok d → NoDup (I d) → J d = [] →
  ∃ st' mo, build d st = (st', inr tt) ∧ g_m st' = Some mo ∧
    g_P st' = [[]] ∧
    (∀ x, feasible mo x →
       value mo x = 0%Z ∧
       ∀ i, i ∈ I d → x (g_l st' !!! (i, [])) = 1%Z ∧ (0 ≤ C d !!! i)%Z) ∧
    ((∀ i, i ∈ I d → (0 ≤ C d !!! i)%Z) → ∃ x, feasible mo x).
Proof.
  intros Hok HI HJ. exists (built_state d st), (built_model d).
  split; [by apply build_ok|]. split; [done|].
  assert (NoDup (J d)) as HJ' by (rewrite HJ; constructor).
  assert (patterns (J d) = [[]]) as HP by by rewrite HJ.
  cbn [built_state g_P g_l]. split_and!; [done| |].
  - intros x (chosen & Hserves & Hsel & ->)%(feasible_plan d Hok HI HJ').
    assert (∀ i, i ∈ I d → chosen i = []) as Hempty.
    { intros i Hi. pose proof (serves_pattern _ _ Hserves i Hi) as Hin.
      rewrite HP in Hin. by apply list_elem_of_singleton in Hin. }
    split.
    + unfold plan_value. apply total_over_zero. intros i Hi.
      rewrite (Hempty i Hi). apply cost_of_empty.
    + intros i Hi. split.
      * rewrite (Hsel i [] Hi (empty_pattern _)).
        by rewrite decide_True by by rewrite Hempty.
      * pose proof (serves_capacity _ _ Hserves i Hi) as Hfit.
        by rewrite (Hempty i Hi) in Hfit.
  - intros Hpos. exists (plan_assignment d (built_l d) (λ _, [])).
    apply (plan_feasible d Hok HI HJ'). split.
    + intros i _. apply empty_pattern.
    + intros i Hi. by apply Hpos.
    + intros j Hj. rewrite HJ in Hj. by apply elem_of_nil in Hj.
Qed.

Lemma unserved_ok : data_ok unserved.
Proof.
  split.
  - by vm_compute.
  - intros i Hi. by apply elem_of_nil in Hi.
  - intros i j Hi. by apply elem_of_nil in Hi.
  - intros i j Hi. by apply elem_of_nil in Hi.
  - intros i p Hi. by apply elem_of_nil in Hi.
Qed.

Lemma idle_ok : data_ok idle.
Proof.
  split.
  - by vm_compute.
  - intros i Hi%elem_of_seq. simpl. lia.
  - intros i j _ Hj. by apply elem_of_nil in Hj.
  - intros i j _ Hj. by apply elem_of_nil in Hj.
  - intros i p _ Hp Hne. apply elem_of_patterns, sublist_nil_r in Hp. done.
Qed.

Lemma no_facilities_witness :
  ∃ st' mo, notebook unserved fresh = (st', inr tt) ∧ g_m st' = Some mo ∧
    vars mo = [] ∧ exactly_one [] ∈ constrs mo ∧ ∀ x, ¬ feasible mo x.
Proof. apply (no_facilities unserved fresh unserved_ok eq_refl). discriminate. Defined.

Lemma no_customers_witness :
  ∃ st' mo, build idle fresh = (st', inr tt) ∧ g_m st' = Some mo ∧
    g_P st' = [[]] ∧ ∃ x, feasible mo x.
Proof.
  destruct (no_customers idle fresh idle_ok (NoDup_seq 0 1) eq_refl)
    as (st' & mo & Hrun & Hm & HP & _ & Hex).
  exists st', mo. refine (conj Hrun (conj Hm (conj HP _))).
  apply Hex. intros i Hi%elem_of_seq. assert (i = 0) as -> by lia. done.
Defined.

(** ** The keys of the connection costs *)

Lemma elem_of_cost_keys (d : data) (i j : nat) :
  (i, j) ∈ cost_keys d ↔ i ∈ I d ∧ j ∈ J d.
Proof.
  unfold cost_keys. rewrite list_elem_of_bind. split.
  - intros (i' & (j' & Heq & Hj)%list_elem_of_fmap & Hi). by simplify_eq.
  - intros [Hi Hj]. exists i. split; [|done]. apply list_elem_of_fmap. by exists j.
Qed.

Lemma length_cost_keys (d : data) :
  length (cost_keys d) = length (I d) * length (J d).
Proof.
  unfold cost_keys. induction (I d) as [|i Is IH]; [done|].
  change ((i :: Is) ≫= λ i, (λ j, (i, j)) <$> J d)
    with (((λ j, (i, j)) <$> J d) ++ (Is ≫= λ i, (λ j, (i, j)) <$> J d)).
  rewrite length_app, length_fmap, IH. simpl. lia.
Qed.

Lemma NoDup_cost_keys (d : data) :
  NoDup (I d) → NoDup (J d) → NoDup (cost_keys d).
Proof.
  intros HI HJ. unfold cost_keys. apply NoDup_bind; [| |done].
  - intros i1 i2 k _ _ (j1 & -> & _)%list_elem_of_fmap
      (j2 & [= -> _] & _)%list_elem_of_fmap. done.
  - intros i _. apply (NoDup_fmap_2 _). done.
Qed.

(** X13: when the run completes on facilities and customers listed without
    repetition, the dictionary of connection costs has a value for every
    facility and customer and no other key: together with the reads of the
    cost cell, the size assertion leaves no room for a stray entry. *)
Theorem no_stray_keys (d : data) (st st' : state) :
  notebook d st = (st', inr tt) → NoDup (I d) → NoDup (J d) →
  ∀ i j, is_Some (c d !! (i, j)) ↔ i ∈ I d ∧ j ∈ J d.
Proof.
  intros Hrun HI HJ.
  assert (data_ok d) as Hok.
  { unfold notebook in Hrun.
    apply bind_inr_inv in Hrun as (s1 & [] & Hbuild & _).
    by eapply build_inr_data_ok. }
  set (S := list_to_set (cost_keys d) : gset (nat * nat)).
  assert (S = dom (c d)) as Hdom.
  { apply set_subseteq_size_eq.
    - intros [i j] [Hi Hj]%elem_of_list_to_set%elem_of_cost_keys.
      apply elem_of_dom. by apply Hok.
    - rewrite size_dom. unfold S.
      rewrite size_list_to_set by by apply NoDup_cost_keys.
      rewrite length_cost_keys.
      by destruct (proj1 (checks_true d) (ok_checks _ Hok)) as (_ & _ & _ & ->). }
  intros i j. rewrite <- elem_of_dom, <- Hdom. unfold S.
  by rewrite elem_of_list_to_set, elem_of_cost_keys.
Qed.

Lemma no_stray_keys_witness :
  is_Some (c example !! (3, 0)) ↔ 3 ∈ I example ∧ 0 ∈ J example.
Proof.
  exact (no_stray_keys example fresh _ (notebook_ok example fresh example_ok)
           (NoDup_seq 0 3) (NoDup_seq 0 5) 3 0).
Defined.

(** ** Exclusions and larger patterns *)

(** X14: with demands that are not negative, the exclusions grow with the
    pattern: when the variable of a pattern is fixed to 0 at a facility, so
    is the variable of every pattern that contains it. *)
Theorem exclusion_upward (d : data) (st : state) :
  data_ok d → (∀ j, j ∈ J d → (0 ≤ b d !!! j)%Z) →
  ∃ st' mo, build d st = (st', inr tt) ∧ g_m st' = Some mo ∧
    ∀ i p q vp vq,
      i ∈ I d → p `sublist_of` q → q ∈ g_P st' →
      g_l st' !! (i, p) = Some vp → g_l st' !! (i, q) = Some vq →
      fix_to_zero vp ∈ constrs mo → fix_to_zero vq ∈ constrs mo.
Proof.
  intros Hok Hpos. exists (built_state d st), (built_model d).
  split; [by apply build_ok|]. split; [done|].
  cbn [built_state g_P g_l]. intros i p q vp vq Hi Hpq Hq Hvp Hvq.
  assert (p ∈ patterns (J d)) as Hp.
  { apply elem_of_patterns. etrans; [done|]. by apply elem_of_patterns. }
  rewrite (fixed_iff_exceeds d (i, p) vp), (fixed_iff_exceeds d (i, q) vq);
    [|by apply elem_of_pairs|done|by apply elem_of_pairs|done].
  rewrite !(exceeds_spec d Hok i) by done.
  pose proof (total_over_sublist_le (λ j, b d !!! j) p q) as Hle.
  unfold total_over in Hle. intros Hex.
  eapply Z.lt_le_trans; [done|]. apply Hle; [|done].
  intros j Hj. apply Hpos. by apply (patterns_drawn_from _ q).
Qed.

Lemma exclusion_upward_witness :
  ∃ st' mo, build example fresh = (st', inr tt) ∧ g_m st' = Some mo ∧
    ∀ i p q vp vq,
      i ∈ I example → p `sublist_of` q → q ∈ g_P st' →
      g_l st' !! (i, p) = Some vp → g_l st' !! (i, q) = Some vq →
      fix_to_zero vp ∈ constrs mo → fix_to_zero vq ∈ constrs mo.
Proof.
  apply (exclusion_upward example fresh example_ok).
  intros j Hj%elem_of_seq.
  assert (j = 0 ∨ j = 1 ∨ j = 2 ∨ j = 3 ∨ j = 4) as Hj' by lia.
  destruct Hj' as [->|[->|[->|[->| ->]]]]; vm_compute; discriminate.
Defined.

Lemma notebook_runs_witness :
  ∃ st' mo, notebook example fresh = (st', inr tt) ∧ g_m st' = Some mo ∧
    g_log st' =
      g_log fresh ++ [NewModel "FacilityLocationWithPattern"; Optimize mo].
Proof. exact (proj1 (notebook_runs example fresh) example_ok). Defined.

(** ** A cost beyond the doubles *)

Lemma quicksum_representable (cs : list Z) :
  Forall representable cs → ∃ s, quicksum cs = inr s.
Proof.
  intros Hcs. unfold quicksum. generalize (Finite 0).
  induction Hcs as [|z zs Hz _ IH]; intros s; [by eexists|].
  cbn [quicksum_from]. rewrite (float_of_int_representable z Hz). apply IH.
Qed.

(** With the connection costs in place, the cost of a non-empty pattern
    fails exactly when the opening cost has no double, with [TypeError]. *)
Lemma pattern_cost_opening (d : data) (i : nat) (p : pattern) :
  i < length (f d) →
  (∀ j, j ∈ p → ∃ z, c d !! (i, j) = Some z ∧ representable z) → p ≠ [] →
  if in_range (round_double (f d !!! i))
  then ∃ w, pattern_cost d i p = inr w
  else pattern_cost d i p = inl TypeError.
Proof.
  intros Hi Hc Hne. rewrite pattern_cost_reads; [|done| |done]; last first.
  { intros j Hj. destruct (Hc j Hj) as (z & -> & _). by eexists. }
  destruct (quicksum_representable ((λ j, c d !!! (i, j)) <$> p)) as [s0 Hs].
  { apply Forall_fmap, Forall_forall. intros j Hj. simpl.
    destruct (Hc j Hj) as (z & Hz & Hrepr).
    by rewrite (lookup_total_correct _ _ _ Hz). }
  unfold cost_sum. rewrite Hs. cbn [E_bind]. unfold add_int, float_of_int.
  destruct (in_range _); [by eexists|done].
Qed.

Lemma cost_cell_opening (d : data) st (i0 : nat) :
  (∀ i, i ∈ I d → i < length (f d)) →
  (∀ i j, i ∈ I d → j ∈ J d → ∃ z, c d !! (i, j) = Some z ∧ representable z) →
  g_P st = patterns (J d) → i0 ∈ I d → J d ≠ [] →
  ¬ representable (f d !!! i0) →
  ∃ st', cost_cell d st = (st', inl TypeError).
Proof.
  intros Hidx Hc HP Hi0 HJ Hf.
  destruct (J d) as [|j0 Js] eqn:HJd; [done|].
  assert (j0 ∈ J d) as Hj0 by (rewrite HJd; left). rewrite <- HJd in *.
  assert (∀ i p, i ∈ I d → p ∈ patterns (J d) → p ≠ [] →
            if in_range (round_double (f d !!! i))
            then ∃ w, pattern_cost d i p = inr w
            else pattern_cost d i p = inl TypeError) as Hcost.
  { intros i p Hi Hp Hne. apply pattern_cost_opening; [by apply Hidx| |done].
    intros j Hj. apply Hc; [done|]. by apply (patterns_drawn_from _ p). }
  unfold cost_cell. rewrite bind_modify, bind_gets, for_nested.
  cbn [set_cost g_P]. rewrite HP.
  apply (for_raises _ _ _ (i0, [j0])).
  - apply elem_of_pairs. split; [done|by apply singleton_pattern].
  - intros s. exists s. unfold cost_body. simpl. apply bind_inl. unfold lift.
    pose proof (Hcost i0 [j0] Hi0 (singleton_pattern _ _ Hj0) ltac:(done))
      as Hraise.
    unfold representable in Hf. destruct (in_range _); [done|].
    by rewrite Hraise.
  - intros [i p] s [Hi Hp]%elem_of_pairs. unfold cost_body. simpl.
    destruct (decide (p = [])) as [->|Hne].
    { eexists. left. unfold bind, lift. simpl. done. }
    pose proof (Hcost i p Hi Hp Hne) as Hip.
    destruct (in_range _).
    + destruct Hip as [w Hw]. eexists. left. unfold bind, lift.
      by rewrite Hw.
    + exists s. right. apply bind_inl. unfold lift. by rewrite Hip.
Qed.

(** X15: an opening cost that lies beyond the doubles passes the assertions;
    with all connection costs in place and at least one customer, the run
    ends with a [TypeError] in the cost cell, after the model and its
    variables have been created, and the solver is never asked to
    optimize. *)
Theorem opening_cost_too_large (d : data) (st : state) (i0 : nat) :
  checks d = true → (∀ i, i ∈ I d → i < length (f d)) →
  (∀ i j, i ∈ I d → j ∈ J d → ∃ z, c d !! (i, j) = Some z ∧ representable z) →
  i0 ∈ I d → J d ≠ [] → ¬ representable (f d !!! i0) →
  ∃ st' mo, notebook d st = (st', inl TypeError) ∧ g_m st' = Some mo
    ∧ vars mo = decl <$> built_pairs d ∧ constrs mo = []
    ∧ g_log st' = g_log st ++ [NewModel "FacilityLocationWithPattern"].
Proof.
  intros Hchecks Hidx Hc Hi0 HJ Hf.
  pose proof (data_cell_spec d st) as Hdata. rewrite Hchecks in Hdata.
  set (s1 := set_P (patterns (J d)) st) in *.
  set (s2 := add_log (NewModel "FacilityLocationWithPattern")
               (set_m (new_Model "FacilityLocationWithPattern") s1)).
  pose proof (var_cell_spec d s2 _ eq_refl) as Hvar.
  match type of Hvar with _ = (?s, _) => set (s3 := s) in * end.
  destruct (cost_cell_opening d s3 i0 Hidx Hc eq_refl Hi0 HJ Hf) as [s4 Hcost].
  assert (log_stable (cost_cell d)) as Hlog by apply log_stable_cost_cell.
  assert (g_m s4 = g_m s3) as Hm.
  { revert Hcost. unfold cost_cell, cost_body.
    generalize s3 s4. clear.
    assert (∀ ks s s', for_ ks (λ k, cost_body d k.1 k.2) s = (s', inl TypeError)
              → g_m s' = g_m s) as Hfor.
    { induction ks as [|[i p] ks IH]; intros s s'; [done|]. simpl.
      unfold cost_body at 1, bind at 1 2, lift at 1, modify at 1.
      destruct (pattern_cost d i p) as [e|w]; [by intros [= <- _]|].
      intros Hrest%IH. by rewrite Hrest. }
    intros s s'. rewrite bind_modify, bind_gets, for_nested.
    intros Hrun%Hfor. by rewrite Hrun. }
  exists s4, (add_vars (new_Model "FacilityLocationWithPattern")
                (decl <$> built_pairs d)).
  split_and!.
  - apply notebook_inl. unfold build.
    rewrite (bind_inr _ _ _ _ _ Hdata).
    erewrite bind_inr; [|reflexivity].
    rewrite (bind_inr _ _ _ _ _ Hvar). by apply bind_inl.
  - by rewrite Hm.
  - done.
  - done.
  - by rewrite (Hlog _ _ _ Hcost).
Qed.

Lemma opening_cost_too_large_witness :
  ∃ st' mo, notebook huge fresh = (st', inl TypeError) ∧ g_m st' = Some mo
    ∧ length (vars mo) = 2 ∧ constrs mo = []
    ∧ g_log st' = [NewModel "FacilityLocationWithPattern"].
Proof.
  destruct (opening_cost_too_large huge fresh 0)
    as (st' & mo & Hrun & Hm & Hvars & Hcs & Hlog).
  - by vm_compute.
  - intros i Hi%elem_of_seq. simpl. lia.
  - intros i j Hi%elem_of_seq Hj%elem_of_seq.
    assert (i = 0) as -> by lia. assert (j = 0) as -> by lia.
    exists 1%Z. split; by vm_compute.
  - left.
  - done.
  - by vm_compute.
  - exists st', mo. rewrite Hvars.
    exact (conj Hrun (conj Hm (conj eq_refl (conj Hcs Hlog)))).
Defined.

(** ** Costs that the doubles hold exactly *)

(** With facilities and customers given as ranges, the assertions, the
    connection costs of all pairs and costs within 2^53 make the data in
    order. *)
Lemma exact_costs_ok (d : data) (nI nJ : nat) :
  I d = builtins.range nI → J d = builtins.range nJ →
  checks d = true →
  (∀ i j, i ∈ I d → j ∈ J d → is_Some (c d !! (i, j))) →
  exact_costs d → data_ok d.
Proof.
  intros HI HJ Hchecks Hkeys Hex.
  pose proof (proj1 (checks_true d) Hchecks) as (HlenJ & HlenI & _ & _).
  split; [done| | |done|].
  - intros i Hi. rewrite <- HlenI. rewrite HI in Hi |- *.
    apply elem_of_seq in Hi. unfold builtins.range. rewrite length_seq. lia.
  - intros i j _ Hj. rewrite <- HlenJ. rewrite HJ in Hj |- *.
    apply elem_of_seq in Hj. unfold builtins.range. rewrite length_seq. lia.
  - intros i p Hi Hp _. by apply exact_costs_finite.
Qed.

(** X16: with facilities and customers given as ranges, as the notebook gives
    them, the run completes when the assertions pass, the connection cost of
    every pair exists and the costs are within 2^53; the objective then has
    one term for every facility and pattern, in the order of the loops,
    whose coefficient is 0 for the empty pattern and otherwise the opening
    cost plus the connection costs of the pattern, as integers. *)
Theorem exact_objective (d : data) (st : state) (nI nJ : nat) :
  I d = builtins.range nI → J d = builtins.range nJ →
  checks d = true →
  (∀ i j, i ∈ I d → j ∈ J d → is_Some (c d !! (i, j))) →
  exact_costs d →
  ∃ st' mo, notebook d st = (st', inr tt) ∧ g_m st' = Some mo
    ∧ objsense mo = MINIMIZE ∧ constant (objective mo) = 0%Z
    ∧ terms (objective mo)
      = (λ k, (service_cost d k.1 k.2, g_l st' !!! k))
          <$> pairs (I d) (g_P st').
Proof.
  intros HI HJ Hchecks Hkeys Hex.
  pose proof (exact_costs_ok d nI nJ HI HJ Hchecks Hkeys Hex) as Hok.
  eexists _, (built_model d). split; [by apply notebook_ok|].
  split; [done|]. split; [done|]. split; [done|].
  cbn [add_log built_state g_l g_P built_model objective built_objective
       quicksum_terms terms].
  apply list_fmap_ext. intros n [i p] Hk%list_elem_of_lookup_2.
  f_equal. rewrite (lookup_total_correct _ _ _ (built_cost_lookup d _ Hk)).
  apply elem_of_pairs in Hk as [Hi Hp]. by apply cost_of_service.
Qed.

Lemma exact_objective_witness :
  ∃ st' mo, notebook overloaded fresh = (st', inr tt) ∧ g_m st' = Some mo
    ∧ terms (objective mo) = [(0%Z, 0); (2%Z, 1)].
Proof.
  destruct (exact_objective overloaded fresh 1 1 eq_refl eq_refl
              (ok_checks _ overloaded_ok) (ok_costs _ overloaded_ok))
    as (st' & mo & Hrun & Hm & _ & _ & Hterms).
  { intros i Hi%elem_of_seq. assert (i = 0) as -> by lia. by vm_compute. }
  exists st', mo. refine (conj Hrun (conj Hm _)).
  rewrite Hterms. rewrite (notebook_ok overloaded fresh overloaded_ok) in Hrun.
  injection Hrun as <-. vm_compute. reflexivity.
Defined.
